(** * Playback queue and session state of the offline music player

    A shallow embedding of the queue-holding part of the [App] component
    (the state declared with [useState], the handlers [processAudioFiles],
    [handleConfirmDelete], [playSong], [togglePlayPause], [playNext],
    [playPrev], [toggleShuffle], [cycleRepeatMode], the two effects that
    write the session snapshot), of the [Player] handlers that call back
    into it ([handleSongEnd], [cyclePlaybackRate], the throttled save), and
    of the scan of the folder, the tags, the volume and the sleep timer.

    Conventions.
    - A JavaScript number that is used as an index is an integer or [NaN]
      ([jsnum]); [null] is [None] on top of that.
    - An array read [arr[i]] yields [undefined] out of range: [js_get]
      returns [None] there.
    - Times and rates are only copied, tested for truthiness and compared
      with constants; they are rationals here.
    - [Math.random] and the file system are oracles: the result of the
      random sort and the outcome of the file removal are arguments.
    - A synchronous handler is one transition. An asynchronous handler
      reads the state of the render it was started in and writes, after its
      [await]s, to the state of that later time: [handleConfirmDelete] takes
      both states, and the pieces of a load between its [await]s are
      transitions of their own.
    - The [audio] element is not part of the state; the time a track starts
      from is [initialTime]. *)

From Stdlib Require Import ZArith QArith Lia Ascii.
From stdpp Require Import base tactics option list list_numbers sorting strings.

Local Open Scope Z_scope.

(** ** JavaScript values *)

Inductive jsnum : Set :=
  | Num (z : Z)
  | NaN.

Global Instance jsnum_eq_dec : EqDecision jsnum.
Proof. solve_decision. Defined.

(** Modelled from the spec: the enum [RepeatMode] is declared in [types.ts],
    which is not part of the sources at hand; the spec gives the cycle
    NONE, ALL, ONE, NONE, so with [(prev + 1) % 3] the members are numbered
    0, 1, 2 in that order. *)
Inductive RepeatMode : Set := NONE | ALL | ONE.

Global Instance RepeatMode_eq_dec : EqDecision RepeatMode.
Proof. solve_decision. Defined.

Definition RepeatMode_to_Z (m : RepeatMode) : Z :=
  match m with NONE => 0 | ALL => 1 | ONE => 2 end.

Definition RepeatMode_of_Z (z : Z) : RepeatMode :=
  if decide (z = 1) then ALL else if decide (z = 2) then ONE else NONE.

(** [arr[i]] for a number [i]; [None] is [undefined]. *)
Definition js_get {A} (arr : list A) (i : Z) : option A :=
  if decide (0 ≤ i) then arr !! Z.to_nat i else None.

Definition js_at {A} (arr : list A) (i : jsnum) : option A :=
  match i with
  | Num z => js_get arr z
  | NaN => None
  end.

(** [arr.indexOf(x)] and [arr.findIndex(i => i === x)] on an array of
    numbers: the first offset holding [x], or [-1]. *)
Definition indexOf (arr : list Z) (x : Z) : Z :=
  match list_find (λ y, y = x) arr with
  | Some (i, _) => Z.of_nat i
  | None => -1
  end.

(** [arr.indexOf(v)] where [v] may be [undefined]: an array of numbers never
    holds [undefined]. *)
Definition indexOf_val (arr : list Z) (v : option Z) : Z :=
  match v with
  | Some x => indexOf arr x
  | None => -1
  end.

(** [a + k], [a % b] and [a >= b] on index numbers. *)
Definition js_add (a : jsnum) (k : Z) : jsnum :=
  match a with
  | Num x => Num (x + k)
  | NaN => NaN
  end.

Definition js_rem (a : jsnum) (b : Z) : jsnum :=
  match a with
  | Num x => if decide (b = 0) then NaN else Num (Z.rem x b)
  | NaN => NaN
  end.

Definition js_ge (a : jsnum) (b : Z) : bool :=
  match a with
  | Num x => bool_decide (b ≤ x)
  | NaN => false
  end.

(** [x || d] on a number. *)
Definition js_or (x d : Q) : Q := if Qeq_bool x 0 then d else x.

(** [arr.filter((_, index) => keep(index))], scanning from offset [i]. *)
Fixpoint filter_index {A} (keep : Z → bool) (i : Z) (arr : list A) : list A :=
  match arr with
  | [] => []
  | x :: rest =>
      if keep i then x :: filter_index keep (i + 1) rest
      else filter_index keep (i + 1) rest
  end.

(** [[q[0], q[k]] = [q[k], q[0]]] on a copy of [q], for [k] in range. *)
Definition swap_with_head (q : list Z) (k : nat) : list Z :=
  match q !! 0%nat, q !! k with
  | Some a, Some b => <[k := a]> (<[0%nat := b]> q)
  | _, _ => q
  end.

(** ** The library and the state of [App] *)

(** The fields, among those of the records built in [processAudioFiles],
    that the handlers and the list read. *)
Record Song : Set := mkSong {
  song_id : string;
  song_name : string;
  song_url : string;
  song_path : list string
}.

Record App : Set := mkApp {
  songs : list Song;
  currentSongIndex : option jsnum;
  isPlaying : bool;
  repeatMode : RepeatMode;
  isShuffled : bool;
  playQueue : list Z;
  originalQueue : list Z;
  directoryHandle : bool;
  initialTime : Q;
  playbackRate : Q;
  songToDelete : option Z;
  alerts : list string
}.

(** The values given to [useState]. [alerts] records the messages passed to
    [alert], newest first. *)
Definition initialApp : App :=
  {| songs := []; currentSongIndex := None; isPlaying := false;
     repeatMode := NONE; isShuffled := false; playQueue := [];
     originalQueue := []; directoryHandle := false; initialTime := 0%Q;
     playbackRate := 1%Q; songToDelete := None; alerts := [] |}.

Definition setSongs (v : list Song) (st : App) : App :=
  {| songs := v; currentSongIndex := currentSongIndex st;
     isPlaying := isPlaying st; repeatMode := repeatMode st;
     isShuffled := isShuffled st; playQueue := playQueue st;
     originalQueue := originalQueue st; directoryHandle := directoryHandle st;
     initialTime := initialTime st; playbackRate := playbackRate st;
     songToDelete := songToDelete st; alerts := alerts st |}.

Definition setCurrentSongIndex (v : option jsnum) (st : App) : App :=
  {| songs := songs st; currentSongIndex := v;
     isPlaying := isPlaying st; repeatMode := repeatMode st;
     isShuffled := isShuffled st; playQueue := playQueue st;
     originalQueue := originalQueue st; directoryHandle := directoryHandle st;
     initialTime := initialTime st; playbackRate := playbackRate st;
     songToDelete := songToDelete st; alerts := alerts st |}.

Definition setIsPlaying (v : bool) (st : App) : App :=
  {| songs := songs st; currentSongIndex := currentSongIndex st;
     isPlaying := v; repeatMode := repeatMode st;
     isShuffled := isShuffled st; playQueue := playQueue st;
     originalQueue := originalQueue st; directoryHandle := directoryHandle st;
     initialTime := initialTime st; playbackRate := playbackRate st;
     songToDelete := songToDelete st; alerts := alerts st |}.

Definition setRepeatMode (v : RepeatMode) (st : App) : App :=
  {| songs := songs st; currentSongIndex := currentSongIndex st;
     isPlaying := isPlaying st; repeatMode := v;
     isShuffled := isShuffled st; playQueue := playQueue st;
     originalQueue := originalQueue st; directoryHandle := directoryHandle st;
     initialTime := initialTime st; playbackRate := playbackRate st;
     songToDelete := songToDelete st; alerts := alerts st |}.

Definition setIsShuffled (v : bool) (st : App) : App :=
  {| songs := songs st; currentSongIndex := currentSongIndex st;
     isPlaying := isPlaying st; repeatMode := repeatMode st;
     isShuffled := v; playQueue := playQueue st;
     originalQueue := originalQueue st; directoryHandle := directoryHandle st;
     initialTime := initialTime st; playbackRate := playbackRate st;
     songToDelete := songToDelete st; alerts := alerts st |}.

Definition setPlayQueue (v : list Z) (st : App) : App :=
  {| songs := songs st; currentSongIndex := currentSongIndex st;
     isPlaying := isPlaying st; repeatMode := repeatMode st;
     isShuffled := isShuffled st; playQueue := v;
     originalQueue := originalQueue st; directoryHandle := directoryHandle st;
     initialTime := initialTime st; playbackRate := playbackRate st;
     songToDelete := songToDelete st; alerts := alerts st |}.

Definition setOriginalQueue (v : list Z) (st : App) : App :=
  {| songs := songs st; currentSongIndex := currentSongIndex st;
     isPlaying := isPlaying st; repeatMode := repeatMode st;
     isShuffled := isShuffled st; playQueue := playQueue st;
     originalQueue := v; directoryHandle := directoryHandle st;
     initialTime := initialTime st; playbackRate := playbackRate st;
     songToDelete := songToDelete st; alerts := alerts st |}.

Definition setHandle (v : bool) (st : App) : App :=
  {| songs := songs st; currentSongIndex := currentSongIndex st;
     isPlaying := isPlaying st; repeatMode := repeatMode st;
     isShuffled := isShuffled st; playQueue := playQueue st;
     originalQueue := originalQueue st; directoryHandle := v;
     initialTime := initialTime st; playbackRate := playbackRate st;
     songToDelete := songToDelete st; alerts := alerts st |}.

Definition setInitialTime (v : Q) (st : App) : App :=
  {| songs := songs st; currentSongIndex := currentSongIndex st;
     isPlaying := isPlaying st; repeatMode := repeatMode st;
     isShuffled := isShuffled st; playQueue := playQueue st;
     originalQueue := originalQueue st; directoryHandle := directoryHandle st;
     initialTime := v; playbackRate := playbackRate st;
     songToDelete := songToDelete st; alerts := alerts st |}.

Definition setPlaybackRate (v : Q) (st : App) : App :=
  {| songs := songs st; currentSongIndex := currentSongIndex st;
     isPlaying := isPlaying st; repeatMode := repeatMode st;
     isShuffled := isShuffled st; playQueue := playQueue st;
     originalQueue := originalQueue st; directoryHandle := directoryHandle st;
     initialTime := initialTime st; playbackRate := v;
     songToDelete := songToDelete st; alerts := alerts st |}.

Definition setSongToDelete (v : option Z) (st : App) : App :=
  {| songs := songs st; currentSongIndex := currentSongIndex st;
     isPlaying := isPlaying st; repeatMode := repeatMode st;
     isShuffled := isShuffled st; playQueue := playQueue st;
     originalQueue := originalQueue st; directoryHandle := directoryHandle st;
     initialTime := initialTime st; playbackRate := playbackRate st;
     songToDelete := v; alerts := alerts st |}.

Definition alert (msg : string) (st : App) : App :=
  {| songs := songs st; currentSongIndex := currentSongIndex st;
     isPlaying := isPlaying st; repeatMode := repeatMode st;
     isShuffled := isShuffled st; playQueue := playQueue st;
     originalQueue := originalQueue st; directoryHandle := directoryHandle st;
     initialTime := initialTime st; playbackRate := playbackRate st;
     songToDelete := songToDelete st; alerts := msg :: alerts st |}.

(** [songs.length] as a number. *)
Definition songCount (st : App) : Z := Z.of_nat (length (songs st)).

(** [playQueue.length] as a number. *)
Definition queueLength (st : App) : Z := Z.of_nat (length (playQueue st)).

(** [currentSongIndex !== null ? playQueue[currentSongIndex] : dflt]; the
    inner [None] is [undefined]. *)
Definition playingLibraryIndex (st : App) : option (option Z) :=
  match currentSongIndex st with
  | Some i => Some (js_at (playQueue st) i)
  | None => None
  end.

(** [currentSong]: [songs[playQueue[currentSongIndex]]], or [null]. Reading
    [songs[undefined]] gives [undefined], which is as falsy as [null]. *)
Definition currentSong (st : App) : option Song :=
  match currentSongIndex st with
  | Some i =>
      match js_at (playQueue st) i with
      | Some t => js_get (songs st) t
      | None => None
      end
  | None => None
  end.

(** ** The playback handlers of [App] *)

Definition playSong (index : Z) (st : App) : App :=
  let queueIndex := indexOf (playQueue st) index in
  if decide (queueIndex ≠ -1) then
    let st1 :=
      if decide (currentSongIndex st ≠ Some (Num queueIndex))
      then setInitialTime 0%Q st else st in
    setIsPlaying true (setCurrentSongIndex (Some (Num queueIndex)) st1)
  else
    let originalIndex := indexOf (originalQueue st) index in
    if decide (originalIndex ≠ -1) then
      let st1 :=
        if decide (currentSongIndex st ≠ Some (Num originalIndex))
        then setInitialTime 0%Q st else st in
      setIsPlaying true (setCurrentSongIndex (Some (Num originalIndex)) st1)
    else st.

Definition togglePlayPause (st : App) : App :=
  if decide (currentSongIndex st = None ∧ 0 < songCount st) then
    setIsPlaying true (setCurrentSongIndex (Some (Num 0)) st)
  else
    setIsPlaying (negb (isPlaying st)) st.

Definition playNext (st : App) : App :=
  match currentSongIndex st with
  | None => st
  | Some i =>
      let nextIndex := js_add i 1 in
      if js_ge nextIndex (queueLength st) then
        if decide (repeatMode st = ALL) then
          setIsPlaying true
            (setCurrentSongIndex (Some (Num 0)) (setInitialTime 0%Q st))
        else
          setIsPlaying false st
      else
        setIsPlaying true
          (setCurrentSongIndex (Some nextIndex) (setInitialTime 0%Q st))
  end.

Definition playPrev (st : App) : App :=
  match currentSongIndex st with
  | None => st
  | Some i =>
      let prevIndex :=
        js_rem (js_add (js_add i (-1)) (queueLength st)) (queueLength st) in
      setIsPlaying true
        (setCurrentSongIndex (Some prevIndex) (setInitialTime 0%Q st))
  end.

(** [currentSongIndex !== null ? playQueue[currentSongIndex] : -1]. *)
Definition currentSongOriginalIndex (st : App) : option Z :=
  match playingLibraryIndex st with
  | Some v => v
  | None => Some (-1)
  end.

(** [shuffled] is what [[...originalQueue].sort(() => Math.random() - 0.5)]
    returned: some rearrangement of [originalQueue]. *)
Definition toggleShuffle (shuffled : list Z) (st : App) : App :=
  let nextIsShuffled := negb (isShuffled st) in
  let cur := currentSongOriginalIndex st in
  if nextIsShuffled then
    let newQueue :=
      if decide (cur ≠ Some (-1)) then
        let currentInShuffled := indexOf_val shuffled cur in
        if decide (0 < currentInShuffled)
        then swap_with_head shuffled (Z.to_nat currentInShuffled)
        else shuffled
      else shuffled in
    setIsShuffled nextIsShuffled
      (setCurrentSongIndex (Some (Num 0)) (setPlayQueue newQueue st))
  else
    let st1 := setPlayQueue (originalQueue st) st in
    let st2 :=
      if decide (cur ≠ Some (-1)) then
        setCurrentSongIndex
          (Some (Num (indexOf_val (originalQueue st) cur))) st1
      else
        setCurrentSongIndex (Some (Num 0)) st1 in
    setIsShuffled nextIsShuffled st2.

Definition cycleRepeatMode (st : App) : App :=
  setRepeatMode
    (RepeatMode_of_Z (Z.rem (RepeatMode_to_Z (repeatMode st) + 1) 3)) st.

(** ** The handlers of [Player] that change the state of [App] *)

Definition playbackSpeeds : list Q := [3 # 4; 1; 5 # 4; 3 # 2]%Q.

(** [playbackSpeeds.indexOf(r)] *)
Definition speedIndex (r : Q) : Z :=
  match list_find (λ s, Qeq_bool s r = true) playbackSpeeds with
  | Some (i, _) => Z.of_nat i
  | None => -1
  end.

Definition cyclePlaybackRate (st : App) : App :=
  let currentIndex := speedIndex (playbackRate st) in
  let nextIndex := Z.rem (currentIndex + 1) (Z.of_nat (length playbackSpeeds)) in
  match js_get playbackSpeeds nextIndex with
  | Some r => setPlaybackRate r st
  | None => st
  end.

(** The [ended] listener. *)
Definition handleSongEnd (st : App) : App :=
  if decide (repeatMode st ≠ ONE) then playNext st else st.

(** The callback of the sleep timer. *)
Definition sleepTimerFired (st : App) : App := setIsPlaying false st.

(** [onInitialTimeApplied], called by [handleMetadataLoaded] after a
    positive start offset was applied. *)
Definition onInitialTimeApplied (st : App) : App := setInitialTime 0%Q st.

(** ** Session snapshots and [localStorage] *)

Module Saved.
(** The object literal [stateToSave] after [JSON.stringify] and
    [JSON.parse]; [NaN] is written as [null]. *)
Record t : Set := mk {
  songCount : Z;
  playQueue : list Z;
  originalQueue : list Z;
  currentSongIndex : option Z;
  isShuffled : bool;
  repeatMode : RepeatMode;
  playbackRate : Q;
  currentTime : Q
}.

Definition setCurrentTime (v : Q) (s : t) : t :=
  {| songCount := songCount s; playQueue := playQueue s;
     originalQueue := originalQueue s;
     currentSongIndex := currentSongIndex s; isShuffled := isShuffled s;
     repeatMode := repeatMode s; playbackRate := playbackRate s;
     currentTime := v |}.
End Saved.

(** What [localStorage.getItem(LOCAL_STORAGE_KEY)] holds: nothing, a text
    that [JSON.parse] rejects, or a snapshot. *)
Inductive Storage : Set :=
  | Absent
  | Corrupt
  | Stored (s : Saved.t).

Record World : Set := mkWorld {
  app : App;
  localStorage : Storage
}.

Definition initialWorld : World :=
  {| app := initialApp; localStorage := Absent |}.

Definition on_app (f : App → App) (w : World) : World :=
  {| app := f (app w); localStorage := localStorage w |}.

Definition json_num (i : jsnum) : option Z :=
  match i with
  | Num z => Some z
  | NaN => None
  end.

Definition stateToSave (st : App) (t : Q) : Saved.t :=
  {| Saved.songCount := songCount st;
     Saved.playQueue := playQueue st;
     Saved.originalQueue := originalQueue st;
     Saved.currentSongIndex := currentSongIndex st ≫= json_num;
     Saved.isShuffled := isShuffled st;
     Saved.repeatMode := repeatMode st;
     Saved.playbackRate := playbackRate st;
     Saved.currentTime := t |}.

(** The effect "Save playback state on change". *)
Definition saveEffect (w : World) : World :=
  if decide (0 < songCount (app w) ∧ currentSongIndex (app w) ≠ None) then
    let currentTime :=
      match localStorage w with
      | Stored s => js_or (Saved.currentTime s) 0%Q
      | _ => 0%Q
      end in
    {| app := app w;
       localStorage := Stored (stateToSave (app w) currentTime) |}
  else w.

(** The [beforeunload] listener; [t] is [audioRef.current.currentTime], and
    the [audio] element exists while [Player] is rendered. *)
Definition handleBeforeUnload (t : Q) (w : World) : World :=
  if decide (0 < songCount (app w) ∧ currentSongIndex (app w) ≠ None
             ∧ currentSong (app w) ≠ None) then
    {| app := app w; localStorage := Stored (stateToSave (app w) t) |}
  else w.

(** The throttled write in [handleTimeUpdate] of [Player]. *)
Definition saveCurrentTime (t : Q) (w : World) : World :=
  match localStorage w with
  | Stored s =>
      {| app := app w; localStorage := Stored (Saved.setCurrentTime t s) |}
  | _ => w
  end.

(** ** Loading a library *)

(** [newSongs.map((_, index) => index)] *)
Definition initialQueue (newSongs : list Song) : list Z :=
  seqZ 0 (Z.of_nat (length newSongs)).

Definition restoreSaved (s : Saved.t) (st : App) : App :=
  setIsPlaying false
    (setPlaybackRate (js_or (Saved.playbackRate s) 1%Q)
       (setInitialTime (js_or (Saved.currentTime s) 0%Q)
          (setRepeatMode (Saved.repeatMode s)
             (setIsShuffled (Saved.isShuffled s)
                (setCurrentSongIndex (Num <$> Saved.currentSongIndex s)
                   (setOriginalQueue (Saved.originalQueue s)
                      (setPlayQueue (Saved.playQueue s) st))))))).

Definition initializeFresh (newSongs : list Song) (st : App) : App :=
  setPlaybackRate 1%Q
    (setInitialTime 0%Q
       (setIsPlaying false
          (setCurrentSongIndex (Some (Num 0))
             (setPlayQueue (initialQueue newSongs)
                (setOriginalQueue (initialQueue newSongs) st))))).

(** [newSongs] stands for the records built from [audioFileEntries]; a
    stored array is truthy whatever its length. *)
Definition processAudioFiles (newSongs : list Song) (w : World) : World :=
  if decide (length newSongs = 0%nat) then
    on_app (alert "No audio files found.") w
  else
    let st := setSongs newSongs (app w) in
    match localStorage w with
    | Stored s =>
        if decide (Saved.songCount s = Z.of_nat (length newSongs)) then
          {| app := restoreSaved s st; localStorage := localStorage w |}
        else
          {| app := initializeFresh newSongs st;
             localStorage := localStorage w |}
    | Corrupt =>
        {| app := initializeFresh newSongs st; localStorage := Absent |}
    | Absent =>
        {| app := initializeFresh newSongs st; localStorage := Absent |}
    end.

Definition removeItem (w : World) : World :=
  {| app := app w; localStorage := Absent |}.

(** The three load handlers below are written as run with nothing else
    happening between their [await]s; [step] has their pieces as
    transitions of their own. [handle] tells whether the argument is a
    handle; [newSongs] stands for what [getFilesRecursively] found under
    it. *)
Definition loadSongsFromHandle
    (handle : bool) (newSongs : list Song) (w : World) : World :=
  if handle then processAudioFiles newSongs w else w.

Definition handleFileSelection (newSongs : list Song) (w : World) : World :=
  processAudioFiles newSongs (removeItem w).

(** The branch of [handleSelectFolder] in which the picker returned a
    handle. *)
Definition handleSelectFolder (newSongs : list Song) (w : World) : World :=
  loadSongsFromHandle true newSongs (on_app (setHandle true) (removeItem w)).

(** ** Deleting a track *)

Definition handleSongDeleteRequest (songIndex : Z) (st : App) : App :=
  setSongToDelete (Some songIndex) st.

(** What the file system answered: [requestPermission] gave something other
    than ['granted'], or rejected; walking the path or [removeEntry]
    rejected; or the file is gone. *)
Inductive FsOutcome : Set :=
  | PermissionDenied
  | PermissionError
  | RemoveError
  | Removed.

(** [q.filter(i => i !== d).map(i => (i > d ? i - 1 : i))] *)
Definition compactQueue (d : Z) (q : list Z) : list Z :=
  (λ i, if decide (d < i) then i - 1 else i) <$> filter (λ i, i ≠ d) q.

(** [old > d ? old - 1 : old]; [undefined > d] is false. *)
Definition shiftedIndex (d : Z) (old : option Z) : option Z :=
  match old with
  | Some o => Some (if decide (d < o) then o - 1 else o)
  | None => None
  end.

(** The part of [handleConfirmDelete] below "Update application state",
    without the [finally] block. The handler is asynchronous: [captured] is
    the state of the render in which Delete was clicked, and everything the
    handler reads ([songs], both queues, [currentSongIndex], [isPlaying]) is
    read from it; [w] is the state in which the removal has completed, and
    the setters write there. *)
Definition commitDelete
    (deletedSongIndex : Z) (captured : App) (w : World) : World :=
  let wasPlaying := isPlaying captured in
  let oldPlayingOriginalIndex := playingLibraryIndex captured in
  let newSongs :=
    filter_index (λ index, bool_decide (index ≠ deletedSongIndex)) 0
      (songs captured) in
  if decide (length newSongs = 0%nat) then
    {| app := setIsPlaying false
                (setCurrentSongIndex None
                   (setPlayQueue []
                      (setOriginalQueue [] (setSongs [] (app w)))));
       localStorage := Absent |}
  else
    let newOriginalQueue :=
      compactQueue deletedSongIndex (originalQueue captured) in
    let newPlayQueue := compactQueue deletedSongIndex (playQueue captured) in
    let newLength := Z.of_nat (length newPlayQueue) in
    let '(newCurrentSongIndex, st1) :=
      match oldPlayingOriginalIndex, currentSongIndex captured with
      | Some old, Some oldQueueIndex =>
          if decide (old = Some deletedSongIndex) then
            (js_rem oldQueueIndex newLength,
             setIsPlaying wasPlaying (setInitialTime 0%Q (app w)))
          else
            let newPlayingOriginalIndex := shiftedIndex deletedSongIndex old in
            let newQueueIndex :=
              indexOf_val newPlayQueue newPlayingOriginalIndex in
            (Num (if decide (newQueueIndex ≠ -1) then newQueueIndex else 0),
             app w)
      | _, _ => (Num 0, app w)
      end in
    {| app := setCurrentSongIndex (Some newCurrentSongIndex)
                (setPlayQueue newPlayQueue
                   (setOriginalQueue newOriginalQueue
                      (setSongs newSongs st1)));
       localStorage := localStorage w |}.

(** The whole handler: started on the state [captured], finished, after its
    [await]s, on the state [w]. When nothing happened in between, [captured]
    is [app w]. *)
Definition handleConfirmDelete
    (fs : FsOutcome) (captured : App) (w : World) : World :=
  match songToDelete captured with
  | None => w
  | Some deletedSongIndex =>
      if negb (directoryHandle captured) then w
      else
        match fs, js_get (songs captured) deletedSongIndex with
        | PermissionDenied, _ =>
            on_app (λ st0,
              setSongToDelete None
                (alert "Permission to write was denied. Cannot delete the file."
                   st0)) w
        | Removed, Some song =>
            on_app (setSongToDelete None)
              (commitDelete deletedSongIndex captured w)
        | _, Some song =>
            on_app (λ st0,
              setSongToDelete None
                (alert ("Failed to delete '" +:+ song_name song
                        +:+ "'. Check console for details.") st0)) w
        | _, None =>
            (* reading [song.path], then [song.name] in the handler, throws:
               only the [finally] block takes effect *)
            on_app (setSongToDelete None) w
        end
  end.

(** [onClose] of the confirmation dialog. *)
Definition closeConfirmation (st : App) : App := setSongToDelete None st.

(** ** What the interface lets happen *)

(** [Player] and [MiniPlayer], with every playback control and the [audio]
    element, are rendered only for a non-empty library with a current song
    (and not while the spinner of a load replaces the page). *)
Definition playerRendered (st : App) : Prop :=
  songs st ≠ [] ∧ currentSong st ≠ None.

(** A row of [SongList]: an entry of [playQueue] with a song behind it. The
    search filter only hides rows. *)
Definition listed (i : Z) (st : App) : Prop :=
  i ∈ playQueue st ∧ is_Some (js_get (songs st) i).

(** One synchronous piece of a handler, or one effect. The loads are
    asynchronous and nobody awaits them: the load on mount and any number of
    clicks on the landing page, which stays in place while a scan runs, are
    in flight together, each for a folder of its own, and each of their
    pieces ([removeItem] and [setHandle] after the picker has answered,
    [processAudioFiles] after the scan and the tag reads) runs whenever its
    [await] returns, also on a library that another load has filled in the
    meantime. So these pieces are steps of their own, with no condition on
    the state they run in. *)
Inductive step : World → World → Prop :=
  | step_setHandle w :
      step w (on_app (setHandle true) w)
  | step_removeItem w :
      step w (removeItem w)
  | step_processAudioFiles newSongs w :
      step w (processAudioFiles newSongs w)
  (* the controls of [Player] and [MiniPlayer], the media session *)
  | step_togglePlayPause w :
      playerRendered (app w) →
      step w (on_app togglePlayPause w)
  | step_playNext w :
      playerRendered (app w) →
      step w (on_app playNext w)
  | step_playPrev w :
      playerRendered (app w) →
      step w (on_app playPrev w)
  | step_toggleShuffle shuffled w :
      playerRendered (app w) →
      shuffled ≡ₚ originalQueue (app w) →
      step w (on_app (toggleShuffle shuffled) w)
  | step_cycleRepeatMode w :
      playerRendered (app w) →
      step w (on_app cycleRepeatMode w)
  | step_cyclePlaybackRate w :
      playerRendered (app w) →
      step w (on_app cyclePlaybackRate w)
  (* events of the [audio] element *)
  | step_songEnd w :
      playerRendered (app w) →
      step w (on_app handleSongEnd w)
  | step_initialTimeApplied w :
      playerRendered (app w) →
      step w (on_app onInitialTimeApplied w)
  | step_timeUpdate t w :
      playerRendered (app w) →
      step w (saveCurrentTime t w)
  | step_sleepTimer w :
      step w (on_app sleepTimerFired w)
  (* the rows of [SongList] *)
  | step_songSelect i w :
      listed i (app w) →
      step w (on_app (playSong i) w)
  | step_deleteRequest i w :
      listed i (app w) →
      directoryHandle (app w) = true →
      step w (on_app (handleSongDeleteRequest i) w)
  (* the confirmation dialog, open while [songToDelete !== null] *)
  | step_closeConfirmation w :
      songToDelete (app w) ≠ None →
      step w (on_app closeConfirmation w)
  (* effects *)
  | step_saveEffect w :
      step w (saveEffect w).

(** The page is closed [t] seconds into the track and opened again: the
    [beforeunload] listener has stored what it stores, and [App] mounts with
    its initial state. *)
Definition reload (t : Q) (w : World) : World :=
  {| app := initialApp;
     localStorage := localStorage (handleBeforeUnload t w) |}.

(** The states the application goes through, together with the states
    captured by the [handleConfirmDelete] calls that have been started: a
    click on Delete captures the state of that render; the call finishes at
    any later time, on the state of that time, unless the page is reloaded
    first. The application starts with nothing stored, or with a stored text
    it cannot read; whatever an earlier session stored is reached through
    [reach_reload]. *)
Inductive reachableWith : list App → World → Prop :=
  | reach_start : reachableWith [] initialWorld
  | reach_start_corrupt :
      reachableWith [] {| app := initialApp; localStorage := Corrupt |}
  | reach_step started w w' :
      reachableWith started w → step w w' → reachableWith started w'
  | reach_confirm_clicked started w :
      reachableWith started w →
      songToDelete (app w) ≠ None →
      reachableWith (app w :: started) w
  | reach_confirm_finished fs captured started w :
      reachableWith started w →
      captured ∈ started →
      reachableWith started (handleConfirmDelete fs captured w)
  | reach_reload t started w :
      reachableWith started w →
      reachableWith [] (reload t w).

Definition reachable (w : World) : Prop := ∃ started, reachableWith started w.

(** ** The invariant *)

Definition identityQueue (n : Z) : list Z := seqZ 0 n.

Record snapshot_ok (s : Saved.t) : Prop := {
  snap_count : 0 < Saved.songCount s;
  snap_original : Saved.originalQueue s = identityQueue (Saved.songCount s);
  snap_play : Saved.playQueue s ≡ₚ identityQueue (Saved.songCount s);
  snap_position :
    ∃ p, Saved.currentSongIndex s = Some p ∧ 0 ≤ p < Saved.songCount s;
  snap_rate : Saved.playbackRate s ∈ playbackSpeeds
}.

Record app_ok (st : App) : Prop := {
  ok_original : originalQueue st = identityQueue (songCount st);
  ok_play : playQueue st ≡ₚ identityQueue (songCount st);
  ok_empty : songs st = [] → currentSongIndex st = None;
  ok_position :
    songs st ≠ [] →
    ∃ p, currentSongIndex st = Some (Num p) ∧ 0 ≤ p < songCount st;
  ok_rate : playbackRate st ∈ playbackSpeeds
}.

Record world_ok (w : World) : Prop := {
  ok_app : app_ok (app w);
  ok_stored : ∀ s, localStorage w = Stored s → snapshot_ok s
}.

(** [sorted(q)] of the specification: the entries of [q] in ascending
    order. *)
Definition sorted (q : list Z) : list Z := merge_sort Z.le q.

(** ** Concrete libraries *)

(** Three tracks, used to run the handlers on concrete libraries. *)
Definition trackA : Song :=
  {| song_id := "a.mp3-1"; song_name := "a"; song_url := "blob:a";
     song_path := ["a.mp3"] |}.
Definition trackB : Song :=
  {| song_id := "b.mp3-2"; song_name := "b"; song_url := "blob:b";
     song_path := ["b.mp3"] |}.
Definition trackC : Song :=
  {| song_id := "c.mp3-3"; song_name := "c"; song_url := "blob:c";
     song_path := ["sub"; "c.mp3"] |}.

(** A folder with the three tracks was picked. *)
Definition loadedWorld : World :=
  handleSelectFolder [trackA; trackB; trackC] initialWorld.

(** The delete button of the row of track 1 was pressed. *)
Definition deleteWorld : World :=
  on_app (handleSongDeleteRequest 1) loadedWorld.

(** Shuffle was turned on; the random sort gave 2, 0, 1. *)
Definition shuffledWorld : World :=
  on_app (toggleShuffle [2; 0; 1]) loadedWorld.

(** The page was reloaded 3.5 seconds into the first track: the state of
    [App] is back to its initial values and the snapshot is stored. *)
Definition savedWorld : World := reload (7 # 2) (saveEffect loadedWorld).

(** A library with a pending deletion and no track selected. *)
Definition unselectedWorld : World :=
  on_app (setCurrentSongIndex None) deleteWorld.

(** The first track is playing and the delete button of the row of track 1
    was pressed: the dialog is open. *)
Definition playingDeleteWorld : World :=
  on_app (handleSongDeleteRequest 1) (on_app togglePlayPause loadedWorld).

(** Delete was clicked in [playingDeleteWorld]; while the removal of the
    second track was awaited, the first track ended. *)
Definition endedWorld : World := on_app handleSongEnd playingDeleteWorld.

(** The removal has completed: the handler started in [playingDeleteWorld]
    finishes in [endedWorld]. *)
Definition staleDeleteWorld : World :=
  handleConfirmDelete Removed (app playingDeleteWorld) endedWorld.

(** Shuffle and repeat are on and the snapshot of the three tracks is
    stored. *)
Definition shuffledSavedWorld : World :=
  saveEffect (on_app cycleRepeatMode shuffledWorld).

(** A load that was still scanning, a folder of two tracks, finishes now. *)
Definition mismatchLoadWorld : World :=
  processAudioFiles [trackA; trackB] shuffledSavedWorld.

(** ** The music folder *)

(** A [File] as far as the scan reads it. *)
Record File : Set := mkFile {
  file_name : string;
  file_type : string;
  file_lastModified : Z
}.

Global Instance File_eq_dec : EqDecision File.
Proof. solve_decision. Defined.

(** What [directoryHandle.values()] yields: file handles and directory
    handles, a directory with the entries it yields in turn. A directory
    handle is the list of its entries, in the order it lists them. *)
#[local] Set Warnings "-register-all".

Inductive Entry : Set :=
  | FileEntry (file : File)
  | DirectoryEntry (name : string) (entries : list Entry).

(** [entry.name] *)
Definition entry_name (entry : Entry) : string :=
  match entry with
  | FileEntry file => file_name file
  | DirectoryEntry name _ => name
  end.

(** [file.type.startsWith('audio/')] *)
Definition isAudio (file : File) : bool :=
  String.prefix "audio/" (file_type file).

(** The body of the loop of [getFilesRecursively], for one entry. *)
Fixpoint visitEntry (currentPath : list string) (entry : Entry)
    : list (File * list string) :=
  match entry with
  | FileEntry file =>
      if isAudio file then [(file, currentPath ++ [file_name file])] else []
  | DirectoryEntry name entries =>
      entries ≫= visitEntry (currentPath ++ [name])
  end.

Definition getFilesRecursively
    (directoryHandle : list Entry) (currentPath : list string)
    : list (File * list string) :=
  directoryHandle ≫= visitEntry currentPath.

(** The file [file] is an entry of the directory reached from [root] by the
    directory names [path] minus its last segment, under that last name. *)
Inductive fileAtPath : list Entry → list string → File → Prop :=
  | fileAtPath_here root file :
      FileEntry file ∈ root →
      fileAtPath root [file_name file] file
  | fileAtPath_below root name entries path file :
      DirectoryEntry name entries ∈ root →
      fileAtPath entries path file →
      fileAtPath root (name :: path) file.

(** ** Tags and display names *)

(** [[^/.]] *)
Definition extensionChar (c : ascii) : bool :=
  negb (Ascii.eqb c "/"%char || Ascii.eqb c "."%char).

(** Whether [s] as a whole matches [[^/.]+]. *)
Definition extensionTail (s : string) : bool :=
  negb (String.eqb s "")
  && forallb extensionChar (String.list_ascii_of_string s).

(** [name.replace(/\.[^/.]+$/, "")]: the search tries the positions from
    the left; a match, which reaches to the end, is cut off. Strings are
    byte strings here; in UTF-8 no byte of a longer character is [/] or
    [.], so the cut falls where it falls on the code units. *)
Fixpoint stripExtension (name : string) : string :=
  match name with
  | EmptyString => EmptyString
  | String c rest =>
      if Ascii.eqb c "."%char && extensionTail rest then EmptyString
      else String c (stripExtension rest)
  end.

(** The tags [jsmediatags] delivered; an absent or empty tag is [None] or
    the empty string. *)
Record Tags : Set := mkTags {
  tag_title : option string;
  tag_artist : option string;
  tag_album : option string
}.

Record Metadata : Set := mkMetadata {
  meta_name : string;
  meta_artist : string;
  meta_album : string
}.

(** [v || d] on a string that may be [undefined]. *)
Definition string_or (v : option string) (d : string) : string :=
  match v with
  | Some s => if String.eqb s "" then d else s
  | None => d
  end.

(** What the promise of [getSongMetadata] resolves to, without the cover
    art; [tags] is [None] when the reader called [onError]. *)
Definition getSongMetadata (file : File) (tags : option Tags) : Metadata :=
  match tags with
  | Some t =>
      {| meta_name := string_or (tag_title t) (stripExtension (file_name file));
         meta_artist := string_or (tag_artist t) "Unknown Artist";
         meta_album := string_or (tag_album t) "Unknown Album" |}
  | None =>
      {| meta_name := stripExtension (file_name file);
         meta_artist := "Unknown Artist";
         meta_album := "Unknown Album" |}
  end.

(** ** Volume of [Player] *)

Record Sound : Set := mkSound {
  volume : Q;
  isMuted : bool
}.

(** The values given to [useState] in [Player]. *)
Definition initialSound : Sound := {| volume := 1%Q; isMuted := false |}.

(** What the effect on [[volume, isMuted]] writes to [audio.volume]. *)
Definition audioVolume (s : Sound) : Q :=
  if isMuted s then 0%Q else volume s.

(** [newVolume > 0] is the negation of [newVolume <= 0] on numbers that
    are not [NaN]. *)
Definition handleVolumeChange (newVolume : Q) (s : Sound) : Sound :=
  if negb (Qle_bool newVolume 0) && isMuted s then
    {| volume := newVolume; isMuted := false |}
  else if Qeq_bool newVolume 0 && negb (isMuted s) then
    {| volume := newVolume; isMuted := true |}
  else
    {| volume := newVolume; isMuted := isMuted s |}.

Definition toggleMute (s : Sound) : Sound :=
  {| volume := volume s; isMuted := negb (isMuted s) |}.

(** ** The sleep timer of [Player] *)

(** The timeouts of the window that [setSleepTimer] created and that have
    neither fired nor been cleared, each with its handle and its delay in
    milliseconds; the handle [window.setTimeout] returns next (handles are
    positive); and [sleepTimerRef.current]. *)
Record Timers : Set := mkTimers {
  sleepTimerRef : option Z;
  pendingTimeouts : list (Z * Z);
  nextHandle : Z
}.

Definition clearTimeout (handle : Z) (pending : list (Z * Z)) : list (Z * Z) :=
  filter (λ timeout, timeout.1 ≠ handle) pending.

Definition setSleepTimer (minutes : Z) (t : Timers) : Timers :=
  let pending :=
    match sleepTimerRef t with
    | Some handle =>
        if decide (handle ≠ 0) then clearTimeout handle (pendingTimeouts t)
        else pendingTimeouts t
    | None => pendingTimeouts t
    end in
  if decide (0 < minutes) then
    {| sleepTimerRef := Some (nextHandle t);
       pendingTimeouts := pending ++ [(nextHandle t, minutes * 60 * 1000)];
       nextHandle := nextHandle t + 1 |}
  else
    {| sleepTimerRef := sleepTimerRef t;
       pendingTimeouts := pending;
       nextHandle := nextHandle t |}.

(** The timeout with this handle fires: it leaves the pending ones; its
    callback is [sleepTimerFired]. *)
Definition timeoutFires (handle : Z) (t : Timers) : Timers :=
  {| sleepTimerRef := sleepTimerRef t;
     pendingTimeouts := clearTimeout handle (pendingTimeouts t);
     nextHandle := nextHandle t |}.

(** [Player] as mounted, in a window whose next handle is [h]. *)
Definition mountedTimers (h : Z) : Timers :=
  {| sleepTimerRef := None; pendingTimeouts := []; nextHandle := h |}.

(** What can happen to the timer while [Player] stays mounted. *)
Inductive timerEvent : Set :=
  | SetSleepTimer (minutes : Z)
  | TimeoutFires (handle : Z).

Definition timerStep (t : Timers) (e : timerEvent) : Timers :=
  match e with
  | SetSleepTimer minutes => setSleepTimer minutes t
  | TimeoutFires handle => timeoutFires handle t
  end.

(** What holds of the timer while [Player] stays mounted. *)
Record timers_ok (t : Timers) : Prop := {
  timers_next : 0 < nextHandle t;
  timers_ref : ∀ handle, sleepTimerRef t = Some handle → 0 < handle;
  timers_pending :
    pendingTimeouts t = []
    ∨ ∃ handle delay,
        pendingTimeouts t = [(handle, delay)]
        ∧ sleepTimerRef t = Some handle
}.

(** ** A folder to run the scan on *)

Definition fileA : File :=
  {| file_name := "a.mp3"; file_type := "audio/mpeg"; file_lastModified := 1 |}.
Definition fileB : File :=
  {| file_name := "b.mp3"; file_type := "audio/mpeg"; file_lastModified := 2 |}.
Definition fileC : File :=
  {| file_name := "c.mp3"; file_type := "audio/mpeg"; file_lastModified := 3 |}.
Definition fileNotes : File :=
  {| file_name := "notes.txt"; file_type := "text/plain";
     file_lastModified := 4 |}.

Definition musicFolder : list Entry :=
  [FileEntry fileA; FileEntry fileNotes;
   DirectoryEntry "sub" [FileEntry fileC]; FileEntry fileB].

(** A library of one track with its deletion pending and a snapshot
    stored. *)
Definition singleTrackWorld : World :=
  saveEffect (on_app (handleSongDeleteRequest 0)
                (handleSelectFolder [trackA] initialWorld)).

(** ** Arrays *)

Section arrays.
Implicit Types (l q : list Z) (x d : Z).

Lemma js_get_Some {A} (arr : list A) i a :
  js_get arr i = Some a ↔ 0 ≤ i ∧ arr !! Z.to_nat i = Some a.
Proof.
  unfold js_get. case_decide as Hi; split.
  - by intros ->.
  - by intros [_ ->].
  - done.
  - intros [? _]. lia.
Qed.

Lemma js_get_in_range {A} (arr : list A) i :
  0 ≤ i < Z.of_nat (length arr) → is_Some (js_get arr i).
Proof.
  intros Hi. unfold js_get. rewrite decide_True by lia.
  apply lookup_lt_is_Some. lia.
Qed.

Lemma js_get_lt {A} (arr : list A) i a :
  js_get arr i = Some a → 0 ≤ i < Z.of_nat (length arr).
Proof.
  rewrite js_get_Some. intros [? Hl]. apply lookup_lt_Some in Hl. lia.
Qed.

Lemma indexOf_found l x :
  x ∈ l →
  0 ≤ indexOf l x < Z.of_nat (length l) ∧ js_get l (indexOf l x) = Some x.
Proof.
  intros Hx. unfold indexOf.
  destruct (list_find_elem_of (λ y, y = x) l x Hx eq_refl) as [[i y] Hf].
  rewrite Hf. apply list_find_Some in Hf as (Hl & -> & _).
  pose proof (lookup_lt_Some _ _ _ Hl).
  split; [lia|]. apply js_get_Some. rewrite Nat2Z.id. split; [lia|done].
Qed.

Lemma indexOf_not_found l x : x ∉ l → indexOf l x = -1.
Proof.
  intros Hx. unfold indexOf.
  destruct (list_find _ l) as [[i y]|] eqn:Hf; [|done].
  apply list_find_Some in Hf as (Hl & -> & _).
  destruct Hx. by eapply list_elem_of_lookup_2.
Qed.

Lemma indexOf_lookup l x i :
  indexOf l x = Z.of_nat i → l !! i = Some x.
Proof.
  unfold indexOf. destruct (list_find _ l) as [[j y]|] eqn:Hf; [|lia].
  apply list_find_Some in Hf as (Hl & -> & _).
  intros Hj. by replace i with j by lia.
Qed.

Lemma indexOf_NoDup l x i :
  NoDup l → l !! i = Some x → indexOf l x = Z.of_nat i.
Proof.
  intros Hnd Hi.
  destruct (indexOf_found l x) as [Hr Hg]; [by eapply list_elem_of_lookup_2|].
  apply js_get_Some in Hg as [_ Hg].
  pose proof (NoDup_lookup _ _ _ _ Hnd Hg Hi). lia.
Qed.

Lemma swap_with_head_perm q k : swap_with_head q k ≡ₚ q.
Proof.
  unfold swap_with_head.
  destruct q as [|a q']; [done|]. simpl.
  destruct k as [|k]; simpl; [done|].
  destruct (q' !! k) as [b|] eqn:Hk; [|done]. simpl.
  rewrite <- (take_drop_middle q' k b Hk) at 2.
  rewrite insert_take_drop by (by eapply lookup_lt_Some).
  rewrite <- !Permutation_middle.
  apply Permutation_swap.
Qed.

Lemma swap_with_head_first q k x :
  q !! k = Some x → swap_with_head q k !! 0%nat = Some x.
Proof.
  intros Hk. unfold swap_with_head.
  destruct q as [|a q']; [done|]. simpl.
  rewrite Hk. destruct k; simpl in *; congruence.
Qed.

Lemma filter_index_drop {A} (arr : list A) d k :
  filter_index (λ index, bool_decide (index ≠ d)) k arr
  = if decide (k ≤ d) then delete (Z.to_nat (d - k)) arr else arr.
Proof.
  revert k. induction arr as [|a arr IH]; intros k; simpl.
  - by case_decide.
  - rewrite IH. case_bool_decide as Hk.
    + case_decide; case_decide; try lia; [|done].
      replace (Z.to_nat (d - k)) with (S (Z.to_nat (d - (k + 1)))) by lia.
      done.
    + subst. rewrite decide_False by lia. rewrite decide_True by lia.
      by rewrite Z.sub_diag.
Qed.

Lemma filter_keeps_all (P : Z → Prop) `{!∀ x, Decision (P x)} l :
  (∀ x, x ∈ l → P x) → filter P l = l.
Proof.
  induction l as [|a l IH]; intros Hl; [done|].
  rewrite filter_cons_True by (apply Hl; left).
  f_equal. apply IH. intros x Hx. apply Hl. by right.
Qed.

Lemma compactQueue_identity d n :
  0 ≤ d < n → compactQueue d (identityQueue n) = identityQueue (n - 1).
Proof.
  intros Hd. unfold compactQueue, identityQueue.
  replace n with (d + (1 + (n - d - 1))) at 1 by lia.
  rewrite seqZ_app, seqZ_app by lia.
  rewrite !filter_app, !fmap_app.
  replace (n - 1) with (d + (n - d - 1)) by lia.
  rewrite (seqZ_app 0 d) by lia. f_equal.
  - rewrite filter_keeps_all.
    + rewrite <- (list_fmap_id (seqZ 0 d)) at 2.
      apply list_fmap_ext. intros i x Hx.
      apply lookup_seqZ in Hx. rewrite decide_False by lia. done.
    + intros x Hx%elem_of_seqZ. lia.
  - rewrite seqZ_cons, seqZ_nil by lia. simpl.
    rewrite filter_cons_False by (intros ?; lia). simpl.
    rewrite filter_keeps_all.
    + replace (0 + d) with (-1 + Z.succ (0 + d)) at 2 by lia.
      rewrite <- (fmap_add_seqZ (-1)).
      apply list_fmap_ext. intros i x Hx.
      apply lookup_seqZ in Hx. rewrite decide_True by lia. lia.
    + intros x Hx%elem_of_seqZ. lia.
Qed.

Lemma compactQueue_perm d q q' :
  q ≡ₚ q' → compactQueue d q ≡ₚ compactQueue d q'.
Proof. intros Hq. unfold compactQueue. by rewrite Hq. Qed.

Lemma length_identityQueue n : 0 ≤ n → Z.of_nat (length (identityQueue n)) = n.
Proof. intros. unfold identityQueue. rewrite length_seqZ. lia. Qed.

Lemma perm_identity_length q n :
  0 ≤ n → q ≡ₚ identityQueue n → Z.of_nat (length q) = n.
Proof. intros Hn ->. by apply length_identityQueue. Qed.

Lemma perm_identity_elem q n x :
  q ≡ₚ identityQueue n → x ∈ q ↔ 0 ≤ x < n.
Proof. intros ->. unfold identityQueue. rewrite elem_of_seqZ. lia. Qed.

Lemma perm_identity_NoDup q n : q ≡ₚ identityQueue n → NoDup q.
Proof. intros ->. apply NoDup_seqZ. Qed.
End arrays.

(** ** The handlers keep the invariant *)

Section preservation.
Implicit Types (st : App) (w : World).

Local Ltac split_ok H :=
  destruct H as [Horig Hplay Hempty Hpos Hrate].

Lemma songCount_nonneg st : 0 ≤ songCount st.
Proof. unfold songCount. lia. Qed.

Lemma songCount_pos st : songs st ≠ [] ↔ 0 < songCount st.
Proof. unfold songCount. destruct (songs st); simpl; split; (done || lia). Qed.

Lemma app_ok_queueLength st : app_ok st → queueLength st = songCount st.
Proof.
  intros H. split_ok H. unfold queueLength.
  eapply perm_identity_length; [apply songCount_nonneg|done].
Qed.

(** Under the invariant a selected position always has a live track. *)
Lemma app_ok_playing st p :
  app_ok st → currentSongIndex st = Some (Num p) →
  0 ≤ p < songCount st ∧
  ∃ t, js_get (playQueue st) p = Some t ∧ 0 ≤ t < songCount st
       ∧ is_Some (js_get (songs st) t).
Proof.
  intros H Hp. pose proof (app_ok_queueLength st H) as Hlen. split_ok H.
  assert (songs st ≠ []) as Hne.
  { intros He. rewrite (Hempty He) in Hp. done. }
  destruct (Hpos Hne) as (p' & Hp' & Hr). assert (p' = p) as -> by congruence.
  split; [done|].
  destruct (js_get_in_range (playQueue st) p) as [t Ht].
  { unfold queueLength in Hlen. lia. }
  exists t. split; [done|].
  assert (t ∈ playQueue st) as Hin.
  { apply js_get_Some in Ht as [_ Ht]. by eapply list_elem_of_lookup_2. }
  apply (perm_identity_elem _ _ _ Hplay) in Hin.
  split; [done|]. apply js_get_in_range. unfold songCount in Hin. lia.
Qed.

Lemma app_ok_currentSong st : app_ok st → songs st ≠ [] → currentSong st ≠ None.
Proof.
  intros H Hne. destruct (ok_position _ H Hne) as (p & Hp & _).
  destruct (app_ok_playing st p H Hp) as (_ & t & Ht & _ & [s Hs]).
  unfold currentSong. rewrite Hp. simpl. rewrite Ht, Hs. done.
Qed.

Local Ltac build_ok :=
  constructor; unfold songCount, queueLength in *; simpl in *; try done.

Lemma togglePlayPause_ok st : app_ok st → app_ok (togglePlayPause st).
Proof.
  intros H. split_ok H. unfold togglePlayPause.
  case_decide as Hc; build_ok.
  - intros He. destruct Hc as [_ Hc]. rewrite He in Hc. simpl in Hc. lia.
  - intros _. exists 0. split; [done|]. lia.
Qed.

Lemma playNext_ok st : app_ok st → app_ok (playNext st).
Proof.
  intros H. pose proof (app_ok_queueLength st H) as Hlen.
  pose proof H as H'. split_ok H. unfold playNext.
  destruct (currentSongIndex st) as [i|] eqn:Hi; [|done].
  assert (songs st ≠ []) as Hne by (intros He; specialize (Hempty He); congruence).
  destruct (Hpos Hne) as (p & Hp & Hr). simplify_eq. simpl.
  case_bool_decide as Hge; [case_decide|]; build_ok.
  - intros _. exists 0. split; [done|]. lia.
  - apply (ok_position _ H').
  - intros _. exists (p + 1). split; [done|]. lia.
Qed.

Lemma playPrev_ok st : app_ok st → app_ok (playPrev st).
Proof.
  intros H. pose proof (app_ok_queueLength st H) as Hlen.
  pose proof H as H'. split_ok H. unfold playPrev.
  destruct (currentSongIndex st) as [i|] eqn:Hi; [|done].
  assert (songs st ≠ []) as Hne by (intros He; specialize (Hempty He); congruence).
  destruct (Hpos Hne) as (p & Hp & Hr). simplify_eq. simpl.
  rewrite Hlen. rewrite decide_False by lia.
  build_ok.
  intros _. eexists. split; [done|].
  apply Z.rem_bound_pos; lia.
Qed.

Lemma handleSongEnd_ok st : app_ok st → app_ok (handleSongEnd st).
Proof. intros H. unfold handleSongEnd. case_decide; [by apply playNext_ok|done]. Qed.

Lemma cycleRepeatMode_ok st : app_ok st → app_ok (cycleRepeatMode st).
Proof. intros H. split_ok H. build_ok. Qed.

Lemma sleepTimerFired_ok st : app_ok st → app_ok (sleepTimerFired st).
Proof. intros H. split_ok H. build_ok. Qed.

Lemma onInitialTimeApplied_ok st : app_ok st → app_ok (onInitialTimeApplied st).
Proof. intros H. split_ok H. build_ok. Qed.

Lemma setHandle_ok b st : app_ok st → app_ok (setHandle b st).
Proof. intros H. split_ok H. build_ok. Qed.

Lemma closeConfirmation_ok st : app_ok st → app_ok (closeConfirmation st).
Proof. intros H. split_ok H. build_ok. Qed.

Lemma alert_ok msg st : app_ok st → app_ok (alert msg st).
Proof. intros H. split_ok H. build_ok. Qed.

Lemma setSongToDelete_None_ok st : app_ok st → app_ok (setSongToDelete None st).
Proof. intros H. split_ok H. build_ok. Qed.

Lemma cyclePlaybackRate_ok st : app_ok st → app_ok (cyclePlaybackRate st).
Proof.
  intros H. split_ok H. unfold cyclePlaybackRate.
  destruct (js_get playbackSpeeds _) as [r|] eqn:Hr; [|by constructor].
  apply js_get_Some in Hr as [_ Hr]. apply list_elem_of_lookup_2 in Hr.
  build_ok.
Qed.

Lemma handleSongDeleteRequest_ok i st :
  app_ok st → app_ok (handleSongDeleteRequest i st).
Proof. intros H. split_ok H. build_ok. Qed.

Lemma indexOf_hit l i :
  indexOf l i ≠ -1 → 0 ≤ indexOf l i < Z.of_nat (length l).
Proof.
  intros Hf. destruct (decide (i ∈ l)) as [Hin|Hin].
  - apply indexOf_found in Hin. lia.
  - by apply indexOf_not_found in Hin.
Qed.

Lemma playSong_ok i st : app_ok st → app_ok (playSong i st).
Proof.
  intros H. pose proof (app_ok_queueLength st H) as Hlen. split_ok H.
  assert (Z.of_nat (length (originalQueue st)) = songCount st) as Hlen'.
  { rewrite Horig. apply length_identityQueue, songCount_nonneg. }
  unfold playSong.
  destruct (decide (indexOf (playQueue st) i ≠ -1)) as [Hq|Hq];
    [apply indexOf_hit in Hq
    |destruct (decide (indexOf (originalQueue st) i ≠ -1)) as [Ho|Ho];
     [apply indexOf_hit in Ho|by constructor]].
  all: case_decide; build_ok.
  all: try (intros He; rewrite He in *; simpl in *; lia).
  all: intros _; eexists; split; [done|]; lia.
Qed.
Lemma app_ok_original_length st :
  app_ok st → Z.of_nat (length (originalQueue st)) = songCount st.
Proof.
  intros H. rewrite (ok_original _ H).
  apply length_identityQueue, songCount_nonneg.
Qed.

(** The library index under the position pointer, under the invariant. *)
Lemma app_ok_current st :
  app_ok st → songs st ≠ [] →
  ∃ p t, currentSongIndex st = Some (Num p)
         ∧ js_get (playQueue st) p = Some t
         ∧ currentSongOriginalIndex st = Some t
         ∧ 0 ≤ p < songCount st ∧ 0 ≤ t < songCount st.
Proof.
  intros H Hne. destruct (ok_position _ H Hne) as (p & Hp & Hr).
  destruct (app_ok_playing st p H Hp) as (_ & t & Ht & Htr & _).
  exists p, t. repeat split; try done; try lia.
  unfold currentSongOriginalIndex, playingLibraryIndex. rewrite Hp. done.
Qed.

Lemma toggleShuffle_queue_perm shuffled st :
  playQueue (toggleShuffle shuffled st)
  ≡ₚ if isShuffled st then originalQueue st else shuffled.
Proof.
  unfold toggleShuffle. destruct (isShuffled st); simpl.
  - by case_decide.
  - repeat case_decide; simpl; try done. apply swap_with_head_perm.
Qed.

Lemma toggleShuffle_ok shuffled st :
  app_ok st → songs st ≠ [] → shuffled ≡ₚ originalQueue st →
  app_ok (toggleShuffle shuffled st).
Proof.
  intros H Hne Hsh.
  destruct (app_ok_current st H Hne) as (p & t & Hp & Ht & Hcur & Hpr & Htr).
  pose proof (toggleShuffle_queue_perm shuffled st) as Hperm.
  pose proof (songCount_pos st) as Hcount. apply Hcount in Hne as Hn.
  pose proof H as H'. split_ok H.
  assert (playQueue (toggleShuffle shuffled st)
          ≡ₚ identityQueue (songCount st)) as Hq.
  { rewrite Hperm. destruct (isShuffled st); [by rewrite Horig|].
    by rewrite Hsh, Horig. }
  clear Hperm. revert Hq. unfold toggleShuffle. rewrite Hcur.
  destruct (isShuffled st); simpl.
  - rewrite decide_True by (intros [=]; lia). simpl. intros Hq.
    build_ok. intros _. eexists. split; [done|].
    enough (0 ≤ indexOf (originalQueue st) t
            < Z.of_nat (length (originalQueue st))) as Hi.
    { rewrite (app_ok_original_length st H') in Hi.
      unfold songCount in Hi. lia. }
    apply indexOf_found. rewrite Horig. unfold identityQueue.
    apply elem_of_seqZ. unfold songCount. lia.
  - intros Hq. build_ok. intros _. exists 0. split; [done|]. lia.
Qed.

(** [songs.filter((_, index) => index !== d)] drops exactly entry [d]. *)
Lemma newSongs_delete {A} (arr : list A) d :
  0 ≤ d →
  filter_index (λ index, bool_decide (index ≠ d)) 0 arr
  = delete (Z.to_nat d) arr.
Proof.
  intros Hd. rewrite filter_index_drop, decide_True by done.
  by rewrite Z.sub_0_r.
Qed.

Lemma newSongs_length {A} (arr : list A) d :
  0 ≤ d < Z.of_nat (length arr) →
  Z.of_nat (length (filter_index (λ index, bool_decide (index ≠ d)) 0 arr))
  = Z.of_nat (length arr) - 1.
Proof.
  intros Hd. rewrite newSongs_delete by lia.
  rewrite length_delete by (apply lookup_lt_is_Some; lia). lia.
Qed.

Lemma compactQueue_elem d q x :
  x ∈ q → x ≠ d →
  (if decide (d < x) then x - 1 else x) ∈ compactQueue d q.
Proof.
  intros Hx Hne. unfold compactQueue.
  apply list_elem_of_fmap. exists x. split; [done|].
  by apply list_elem_of_filter.
Qed.

Lemma commitDelete_app_ok d captured w :
  app_ok captured → playbackRate (app w) ∈ playbackSpeeds →
  0 ≤ d < songCount captured →
  app_ok (app (commitDelete d captured w)).
Proof.
  intros H Hrate' Hd.
  pose proof (newSongs_length (songs captured) d Hd) as Hlen.
  assert (songs captured ≠ []) as Hne by (apply songCount_pos; lia).
  destruct (app_ok_current captured H Hne)
    as (p & t & Hp & Ht & Hcur & Hpr & Htr).
  pose proof H as H'. split_ok H.
  unfold commitDelete.
  set (newSongs := filter_index _ 0 (songs captured)) in *.
  case_decide as Hz; simpl.
  { build_ok. }
  assert (1 < songCount captured) as Hn by (unfold songCount in *; lia).
  assert (compactQueue d (playQueue captured)
          ≡ₚ identityQueue (songCount captured - 1)) as Hq.
  { rewrite (compactQueue_perm d _ _ Hplay).
    by rewrite compactQueue_identity. }
  assert (Z.of_nat (length (compactQueue d (playQueue captured)))
          = songCount captured - 1) as Hql
    by (apply perm_identity_length; [lia|done]).
  unfold playingLibraryIndex. rewrite Hp. simpl. rewrite Ht.
  assert (t ∈ playQueue captured) as Hin.
  { apply (perm_identity_elem _ _ _ Hplay). lia. }
  case_decide as Ht'; simpl.
  - rewrite Hql. rewrite decide_False by lia.
    build_ok.
    + rewrite Horig, Hlen. by apply compactQueue_identity.
    + by rewrite Hlen.
    + intros He. by rewrite He in Hz.
    + intros _. eexists. split; [done|]. rewrite Hlen.
      apply Z.rem_bound_pos; lia.
  - assert (t ≠ d) as Hne' by congruence.
    pose proof (compactQueue_elem d _ t Hin Hne') as Hel.
    apply indexOf_found in Hel as [Hr _].
    rewrite decide_True by lia.
    build_ok.
    + rewrite Horig, Hlen. by apply compactQueue_identity.
    + by rewrite Hlen.
    + intros He. by rewrite He in Hz.
    + intros _. eexists. split; [done|]. lia.
Qed.

(** *** Lifting to the application with its storage *)

Lemma on_app_ok f w :
  world_ok w → app_ok (f (app w)) → world_ok (on_app f w).
Proof. intros [Ha Hs] Hf. by constructor. Qed.

Lemma toggleShuffle_songs sh st : songs (toggleShuffle sh st) = songs st.
Proof.
  unfold toggleShuffle.
  repeat (case_decide || case_match || case_bool_decide); done.
Qed.

Lemma speed_truthy r : r ∈ playbackSpeeds → ∀ d, js_or r d = r.
Proof.
  unfold playbackSpeeds. rewrite !elem_of_cons, elem_of_nil.
  intros [->|[->|[->|[->|[]]]]] d; reflexivity.
Qed.

Lemma app_ok_initial : app_ok initialApp.
Proof.
  constructor; simpl; try done.
  unfold playbackSpeeds. rewrite !elem_of_cons. auto.
Qed.

Lemma world_ok_initial ls :
  (∀ s, ls = Stored s → snapshot_ok s) →
  world_ok {| app := initialApp; localStorage := ls |}.
Proof. intros Hs. constructor; simpl; [apply app_ok_initial|done]. Qed.

Lemma removeItem_ok w : world_ok w → world_ok (removeItem w).
Proof. intros [Ha Hs]. constructor; simpl; done. Qed.

Lemma stateToSave_ok st t :
  app_ok st → songs st ≠ [] → snapshot_ok (stateToSave st t).
Proof.
  intros H Hne. destruct (ok_position _ H Hne) as (p & Hp & Hr).
  apply songCount_pos in Hne. split_ok H. constructor; simpl; try done.
  exists p. by rewrite Hp.
Qed.

Lemma saveEffect_ok w : world_ok w → world_ok (saveEffect w).
Proof.
  intros [Ha Hs]. unfold saveEffect. case_decide as Hc; [|done].
  destruct Hc as [Hn%songCount_pos _].
  constructor; simpl; [done|].
  intros s [= <-]. by apply stateToSave_ok.
Qed.

Lemma handleBeforeUnload_ok t w : world_ok w → world_ok (handleBeforeUnload t w).
Proof.
  intros [Ha Hs]. unfold handleBeforeUnload. case_decide as Hc; [|done].
  destruct Hc as [Hn%songCount_pos _].
  constructor; simpl; [done|].
  intros s [= <-]. by apply stateToSave_ok.
Qed.

Lemma saveCurrentTime_ok t w : world_ok w → world_ok (saveCurrentTime t w).
Proof.
  intros Hw. pose proof Hw as [Ha Hs]. unfold saveCurrentTime.
  destruct (localStorage w) as [| |s] eqn:Hst; [done..|].
  constructor; simpl; [done|].
  intros s' [= <-]. destruct (Hs s eq_refl). by constructor.
Qed.

Lemma restoreSaved_ok s newSongs st :
  snapshot_ok s →
  Saved.songCount s = Z.of_nat (length newSongs) →
  app_ok (restoreSaved s (setSongs newSongs st)).
Proof.
  intros [Hc Ho Hp (p & Hpos & Hr) Hrate] Hn.
  build_ok.
  - by rewrite <- Hn.
  - by rewrite <- Hn.
  - intros He'. rewrite He' in Hn. simpl in Hn. lia.
  - intros _. exists p. rewrite Hpos. split; [done|lia].
  - by rewrite speed_truthy.
Qed.

Lemma initializeFresh_ok newSongs st :
  newSongs ≠ [] →
  app_ok (initializeFresh newSongs (setSongs newSongs st)).
Proof.
  intros Hne. build_ok.
  - intros _. exists 0. split; [done|]. destruct newSongs; [done|]. simpl. lia.
  - unfold playbackSpeeds. rewrite !elem_of_cons. auto.
Qed.

Lemma processAudioFiles_ok newSongs w :
  world_ok w → world_ok (processAudioFiles newSongs w).
Proof.
  intros Hw. pose proof Hw as [Ha Hs]. unfold processAudioFiles.
  case_decide as Hlen.
  { apply on_app_ok; [done|by apply alert_ok]. }
  assert (newSongs ≠ []) as Hne by (by destruct newSongs).
  destruct (localStorage w) as [| |s] eqn:Hst; [| |case_decide as Hc].
  all: constructor; simpl;
    [first [by apply initializeFresh_ok | by apply restoreSaved_ok; auto]
    |done].
Qed.

Lemma commitDelete_songs d captured w :
  songs (app (commitDelete d captured w))
  = filter_index (λ index, bool_decide (index ≠ d)) 0 (songs captured).
Proof.
  unfold commitDelete. case_decide as Hz; simpl.
  - symmetry. by apply length_zero_iff_nil.
  - by case_match.
Qed.

Lemma commitDelete_storage d captured w :
  localStorage (commitDelete d captured w)
  = if decide (songs (app (commitDelete d captured w)) = [])
    then Absent else localStorage w.
Proof.
  rewrite commitDelete_songs. unfold commitDelete.
  case_decide as Hz; simpl.
  - apply length_zero_iff_nil in Hz. by rewrite decide_True.
  - rewrite decide_False by (by intros ?%length_zero_iff_nil).
    by case_match.
Qed.

(** A deletion started on a state that satisfies the invariant keeps it,
    whatever state it finishes on. *)
Lemma handleConfirmDelete_ok fs captured w :
  world_ok w → app_ok captured →
  world_ok (handleConfirmDelete fs captured w).
Proof.
  intros Hw Hc. pose proof Hw as [Ha Hs]. unfold handleConfirmDelete.
  destruct (songToDelete captured) as [d|] eqn:Hdel; [|done].
  destruct (directoryHandle captured); simpl; [|done].
  assert (∀ msg, world_ok (on_app (λ st0, setSongToDelete None (alert msg st0)) w))
    as Halert.
  { intros msg. apply on_app_ok; [done|].
    by apply setSongToDelete_None_ok, alert_ok. }
  assert (world_ok (on_app (setSongToDelete None) w)) as Hnone.
  { apply on_app_ok; [done|]. by apply setSongToDelete_None_ok. }
  destruct fs, (js_get (songs captured) d) as [song|] eqn:Hsong; try done.
  apply js_get_lt in Hsong.
  pose proof (commitDelete_app_ok d captured w Hc (ok_rate _ Ha) Hsong) as Hok.
  pose proof (commitDelete_storage d captured w) as Hst.
  constructor; simpl; [by apply setSongToDelete_None_ok|].
  intros s. rewrite Hst. case_decide; [done|]. apply Hs.
Qed.

Lemma step_ok w w' : world_ok w → step w w' → world_ok w'.
Proof.
  intros Hw Hstep. pose proof (ok_app _ Hw) as Ha.
  destruct Hstep as
    [w|w|ns w
    |w [Hne _]|w [Hne _]|w [Hne _]|sh w [Hne _] Hsh|w [Hne _]|w [Hne _]
    |w [Hne _]|w [Hne _]|t w _|w
    |i w Hl|i w Hl Hh
    |w _
    |w].
  - apply on_app_ok; [done|]. by apply setHandle_ok.
  - by apply removeItem_ok.
  - by apply processAudioFiles_ok.
  - apply on_app_ok; [done|]. by apply togglePlayPause_ok.
  - apply on_app_ok; [done|]. by apply playNext_ok.
  - apply on_app_ok; [done|]. by apply playPrev_ok.
  - apply on_app_ok; [done|]. by apply toggleShuffle_ok.
  - apply on_app_ok; [done|]. by apply cycleRepeatMode_ok.
  - apply on_app_ok; [done|]. by apply cyclePlaybackRate_ok.
  - apply on_app_ok; [done|]. by apply handleSongEnd_ok.
  - apply on_app_ok; [done|]. by apply onInitialTimeApplied_ok.
  - by apply saveCurrentTime_ok.
  - apply on_app_ok; [done|]. by apply sleepTimerFired_ok.
  - apply on_app_ok; [done|]. by apply playSong_ok.
  - apply on_app_ok; [done|]. by apply handleSongDeleteRequest_ok.
  - apply on_app_ok; [done|]. by apply closeConfirmation_ok.
  - by apply saveEffect_ok.
Qed.

Lemma reload_ok t w : world_ok w → world_ok (reload t w).
Proof.
  intros Hw. apply world_ok_initial.
  apply (ok_stored _ (handleBeforeUnload_ok t w Hw)).
Qed.

Lemma reachableWith_ok started w :
  reachableWith started w → world_ok w ∧ Forall app_ok started.
Proof.
  induction 1 as
    [| |started w w' _ [IHw IHs] Hstep
     |started w _ [IHw IHs] _
     |fs captured started w _ [IHw IHs] Hin
     |t started w _ [IHw IHs]].
  - split; [by apply world_ok_initial|constructor].
  - split; [by apply world_ok_initial|constructor].
  - split; [by eapply step_ok|done].
  - split; [done|]. constructor; [apply (ok_app _ IHw)|done].
  - split; [|done]. apply handleConfirmDelete_ok; [done|].
    rewrite Forall_forall in IHs. by apply IHs.
  - split; [by apply reload_ok|constructor].
Qed.

Theorem reachable_ok w : reachable w → world_ok w.
Proof. intros [started Hr]. by destruct (reachableWith_ok _ _ Hr). Qed.
End preservation.

(** ** The two orders are permutations of the library's indices *)

Lemma Sorted_seqZ m n : Sorted Z.le (seqZ m n).
Proof.
  destruct (decide (0 ≤ n)) as [Hn|Hn]; [|rewrite seqZ_nil by lia; constructor].
  rewrite <- (Z2Nat.id n Hn). clear Hn.
  generalize (Z.to_nat n). clear n. intros k. revert m.
  induction k as [|k IH]; intros m.
  - rewrite seqZ_nil by lia. constructor.
  - rewrite seqZ_cons by lia.
    replace (Z.pred (Z.of_nat (S k))) with (Z.of_nat k) by lia.
    constructor; [apply IH|].
    destruct k as [|k]; [rewrite seqZ_nil by lia; constructor|].
    rewrite seqZ_cons by lia. constructor. lia.
Qed.

Lemma sorted_identity q n : q ≡ₚ identityQueue n → sorted q = identityQueue n.
Proof.
  intros Hq. unfold sorted, identityQueue.
  apply (Sorted_unique Z.le).
  - apply (Sorted_merge_sort Z.le).
  - apply Sorted_seqZ.
  - by rewrite merge_sort_Permutation.
Qed.

(** *** How the concrete libraries come about *)

Lemma handleSelectFolder_reachableWith started newSongs w :
  reachableWith started w →
  reachableWith started (handleSelectFolder newSongs w).
Proof.
  intros Hr. unfold handleSelectFolder, loadSongsFromHandle.
  eapply reach_step; [|apply step_processAudioFiles].
  eapply reach_step; [|apply step_setHandle].
  eapply reach_step; [exact Hr|apply step_removeItem].
Qed.

Lemma loadedWorld_reachableWith : reachableWith [] loadedWorld.
Proof. apply handleSelectFolder_reachableWith, reach_start. Qed.

Lemma loadedWorld_reachable : reachable loadedWorld.
Proof. exists []. apply loadedWorld_reachableWith. Qed.

Lemma loadedWorld_rendered : playerRendered (app loadedWorld).
Proof. split; by vm_compute. Qed.

Lemma deleteWorld_reachable : reachable deleteWorld.
Proof.
  exists []. eapply reach_step; [apply loadedWorld_reachableWith|].
  apply step_deleteRequest; [|by vm_compute].
  split; [apply (bool_decide_unpack _); by vm_compute|by eexists].
Qed.

Lemma shuffledWorld_reachableWith : reachableWith [] shuffledWorld.
Proof.
  eapply reach_step; [apply loadedWorld_reachableWith|].
  apply step_toggleShuffle; [apply loadedWorld_rendered|].
  apply (bool_decide_unpack _); by vm_compute.
Qed.

Lemma shuffledWorld_reachable : reachable shuffledWorld.
Proof. exists []. apply shuffledWorld_reachableWith. Qed.

Lemma savedWorld_reachable : reachable savedWorld.
Proof.
  exists []. eapply reach_reload.
  eapply reach_step; [apply loadedWorld_reachableWith|apply step_saveEffect].
Qed.

(** The track plays, the deletion of the second track is requested and
    confirmed, the track ends, the removal completes. *)
Lemma staleDeleteWorld_reachable : reachable staleDeleteWorld.
Proof.
  exists [app playingDeleteWorld].
  apply reach_confirm_finished; [|apply list_elem_of_here].
  apply (reach_step _ playingDeleteWorld);
    [|apply step_songEnd; split; by vm_compute].
  apply reach_confirm_clicked; [|by vm_compute].
  eapply reach_step.
  - eapply reach_step; [apply loadedWorld_reachableWith|].
    apply step_togglePlayPause, loadedWorld_rendered.
  - apply step_deleteRequest; [|by vm_compute].
    split; [apply (bool_decide_unpack _); by vm_compute|by eexists].
Qed.

(** Shuffle and repeat are turned on, the save effect runs, and a second
    load, of two tracks, completes. *)
Lemma mismatchLoadWorld_reachable : reachable mismatchLoadWorld.
Proof.
  exists []. eapply reach_step; [|apply step_processAudioFiles].
  eapply reach_step; [|apply step_saveEffect].
  eapply reach_step; [apply shuffledWorld_reachableWith|].
  apply step_cycleRepeatMode. split; by vm_compute.
Qed.

(** C1. In every reachable state [playQueue] and [originalQueue] are both
    permutations of the indices [0 .. songs.length - 1] of the library, and
    sorting either of them gives exactly that list. Every state produced by
    loading a library, by [toggleShuffle] and by a confirmed deletion is
    reachable, so the property holds after each of them. *)
Theorem C1_orders_are_permutations w :
  reachable w →
  playQueue (app w) ≡ₚ seqZ 0 (songCount (app w))
  ∧ originalQueue (app w) ≡ₚ seqZ 0 (songCount (app w))
  ∧ sorted (playQueue (app w)) = seqZ 0 (songCount (app w))
  ∧ sorted (originalQueue (app w)) = seqZ 0 (songCount (app w)).
Proof.
  intros Hr. destruct (reachable_ok w Hr) as [[Horig Hplay _ _ _] _].
  repeat split.
  - done.
  - by rewrite Horig.
  - by apply sorted_identity.
  - apply sorted_identity. by rewrite Horig.
Qed.

Lemma C1_orders_are_permutations_witness :
  playQueue (app loadedWorld) ≡ₚ seqZ 0 (songCount (app loadedWorld))
  ∧ originalQueue (app loadedWorld) ≡ₚ seqZ 0 (songCount (app loadedWorld))
  ∧ sorted (playQueue (app loadedWorld)) = seqZ 0 (songCount (app loadedWorld))
  ∧ sorted (originalQueue (app loadedWorld))
    = seqZ 0 (songCount (app loadedWorld)).
Proof. exact (C1_orders_are_permutations loadedWorld loadedWorld_reachable). Defined.

(** ** The position pointer resolves to a live track *)

(** C2. In every reachable state, a non-null [currentSongIndex] is an
    integer [p] with [0 <= p < playQueue.length], and [playQueue[p]] is an
    index [t] with [0 <= t < songs.length], so that [songs[t]] exists. The
    handlers are the steps of [reachable], so each of them preserves this. *)
Theorem C2_position_resolves w i :
  reachable w →
  currentSongIndex (app w) = Some i →
  ∃ p t, i = Num p
         ∧ 0 ≤ p < queueLength (app w)
         ∧ js_get (playQueue (app w)) p = Some t
         ∧ 0 ≤ t < songCount (app w)
         ∧ is_Some (js_get (songs (app w)) t).
Proof.
  intros Hr Hi. destruct (reachable_ok w Hr) as [Ha _].
  assert (songs (app w) ≠ []) as Hne.
  { intros He. rewrite (ok_empty _ Ha He) in Hi. done. }
  destruct (ok_position _ Ha Hne) as (p & Hp & _).
  destruct (app_ok_playing _ p Ha Hp) as (Hr' & t & Ht & Htr & Hs).
  exists p, t. rewrite (app_ok_queueLength _ Ha).
  repeat split; try done; try lia. congruence.
Qed.

Lemma C2_position_resolves_witness :
  ∃ p t, Num 0 = Num p
         ∧ 0 ≤ p < queueLength (app loadedWorld)
         ∧ js_get (playQueue (app loadedWorld)) p = Some t
         ∧ 0 ≤ t < songCount (app loadedWorld)
         ∧ is_Some (js_get (songs (app loadedWorld)) t).
Proof.
  exact (C2_position_resolves loadedWorld (Num 0) loadedWorld_reachable eq_refl).
Defined.

(** ** Advancing *)

(** C5. With the position at [p] inside [playQueue]: [playNext] moves to
    [p + 1] while that is inside the queue; from the last index it moves to
    0 under [RepeatMode.ALL], and otherwise only clears [isPlaying], leaving
    the position where it is. [playPrev] moves to [(p - 1) mod length] in
    every repeat mode, which from 0 is the last index. *)
Theorem C5_advance st p :
  currentSongIndex st = Some (Num p) →
  0 ≤ p < queueLength st →
  (p + 1 < queueLength st →
     currentSongIndex (playNext st) = Some (Num (p + 1))
     ∧ isPlaying (playNext st) = true)
  ∧ (p = queueLength st - 1 → repeatMode st = ALL →
     currentSongIndex (playNext st) = Some (Num 0)
     ∧ isPlaying (playNext st) = true)
  ∧ (p = queueLength st - 1 → repeatMode st ≠ ALL →
     playNext st = setIsPlaying false st
     ∧ currentSongIndex (playNext st) = Some (Num p)
     ∧ isPlaying (playNext st) = false)
  ∧ currentSongIndex (playPrev st)
    = Some (Num ((p - 1) `mod` queueLength st))
  ∧ (p = 0 → currentSongIndex (playPrev st)
             = Some (Num (queueLength st - 1)))
  ∧ isPlaying (playPrev st) = true.
Proof.
  intros Hp Hr.
  assert (currentSongIndex (playPrev st)
          = Some (Num ((p - 1) `mod` queueLength st))) as Hprev.
  { unfold playPrev. rewrite Hp. simpl. rewrite decide_False by lia.
    do 2 f_equal.
    rewrite Z.rem_mod_nonneg by lia.
    rewrite <- (Z.mul_1_l (queueLength st)) at 1.
    by rewrite Z.mod_add by lia. }
  repeat split.
  - unfold playNext. rewrite Hp. simpl. by rewrite bool_decide_false by lia.
  - unfold playNext. rewrite Hp. simpl. by rewrite bool_decide_false by lia.
  - unfold playNext. rewrite Hp. simpl.
    rewrite bool_decide_true by lia. by rewrite decide_True.
  - unfold playNext. rewrite Hp. simpl.
    rewrite bool_decide_true by lia. by rewrite decide_True.
  - unfold playNext. rewrite Hp. simpl.
    rewrite bool_decide_true by lia. by rewrite decide_False.
  - unfold playNext. rewrite Hp. simpl.
    rewrite bool_decide_true by lia. by rewrite decide_False.
  - unfold playNext. rewrite Hp. simpl.
    rewrite bool_decide_true by lia. by rewrite decide_False.
  - done.
  - intros ->. rewrite Hprev. do 2 f_equal. symmetry.
    apply (Z.mod_unique_pos _ _ (-1)); lia.
  - unfold playPrev. by rewrite Hp.
Qed.

Lemma C5_advance_witness :
  currentSongIndex (app loadedWorld) = Some (Num 0)
  ∧ 0 ≤ 0 < queueLength (app loadedWorld)
  ∧ currentSongIndex (playNext (app loadedWorld)) = Some (Num 1)
  ∧ currentSongIndex (playPrev (app loadedWorld)) = Some (Num 2).
Proof.
  assert (0 ≤ 0 < queueLength (app loadedWorld)) as Hr by (by vm_compute).
  destruct (C5_advance (app loadedWorld) 0 eq_refl Hr)
    as (Hnext & _ & _ & _ & Hprev & _).
  split; [reflexivity|]. split; [exact Hr|].
  split; [apply Hnext; by vm_compute|by apply Hprev].
Defined.

(** Scenario A of the specification in small (three tracks): two steps
    forward reach the last index; a third stops there without
    [RepeatMode.ALL] and wraps to 0 with it. *)
Example advance_scenario :
  let st := playNext (playNext (app loadedWorld)) in
  currentSongIndex st = Some (Num 2)
  ∧ currentSongIndex (playNext st) = Some (Num 2)
  ∧ isPlaying (playNext st) = false
  ∧ currentSongIndex (playNext (cycleRepeatMode st)) = Some (Num 0)
  ∧ currentSongIndex (playPrev (app loadedWorld)) = Some (Num 2).
Proof. by vm_compute. Qed.

(** ** Deleting a track from the queue *)

(** What is left of [commitDelete] once the position it reads is known and
    a track survives. *)
Lemma commitDelete_app d captured w p t :
  currentSongIndex captured = Some (Num p) →
  js_get (playQueue captured) p = Some t →
  filter_index (λ index, bool_decide (index ≠ d)) 0 (songs captured) ≠ [] →
  let newPlayQueue := compactQueue d (playQueue captured) in
  let queues st0 :=
    setPlayQueue newPlayQueue
      (setOriginalQueue (compactQueue d (originalQueue captured))
         (setSongs
            (filter_index (λ index, bool_decide (index ≠ d)) 0
               (songs captured))
            st0)) in
  app (commitDelete d captured w)
  = if decide (t = d) then
      setCurrentSongIndex
        (Some (js_rem (Num p) (Z.of_nat (length newPlayQueue))))
        (queues (setIsPlaying (isPlaying captured)
                   (setInitialTime 0%Q (app w))))
    else
      let newQueueIndex :=
        indexOf newPlayQueue (if decide (d < t) then t - 1 else t) in
      setCurrentSongIndex
        (Some (Num (if decide (newQueueIndex ≠ -1) then newQueueIndex else 0)))
        (queues (app w)).
Proof.
  intros Hp Ht Hne. simpl. unfold commitDelete.
  rewrite decide_False by (by intros ?%length_zero_iff_nil).
  unfold playingLibraryIndex. rewrite Hp. simpl. rewrite Ht.
  destruct (decide (t = d)) as [->|Hd].
  - by rewrite decide_True.
  - rewrite decide_False by congruence. done.
Qed.

(** The track behind a surviving index is the one it named before. *)
Lemma newSongs_lookup {A} (arr : list A) d t :
  0 ≤ d → 0 ≤ t → t ≠ d →
  js_get (filter_index (λ index, bool_decide (index ≠ d)) 0 arr)
         (if decide (d < t) then t - 1 else t)
  = js_get arr t.
Proof.
  intros Hd Ht Hne. rewrite newSongs_delete by done.
  destruct (decide (d < t)) as [Hlt|Hlt]; unfold js_get.
  - rewrite !decide_True by lia.
    rewrite list_lookup_delete_ge by lia. f_equal. lia.
  - rewrite !decide_True by lia.
    rewrite list_lookup_delete_lt by lia. done.
Qed.

(** C3. [handleConfirmDelete] computes the new position from the render in
    which Delete was clicked, and writes it when the removal has completed;
    the claim fails when the position has moved in between. Tracks a, b and
    c are loaded and a is playing; the deletion of b, library index 1, is
    requested and confirmed; while the removal is awaited a ends, so that b,
    at position 1, is current ([endedWorld]); then the removal completes
    ([staleDeleteWorld]). The removed track is the one at the position, so
    the claim puts the new position at [1 mod 2 = 1], on c, the track after
    the removed one. The code takes the branch for another track, with the
    position 0 it captured: the new position is 0, on a. (Both queues are
    compacted as the claim says.) *)
Theorem C3_removeLibraryIndex :
  reachable staleDeleteWorld
  ∧ songs (app endedWorld) = [trackA; trackB; trackC]
  ∧ playQueue (app endedWorld) = [0; 1; 2]
  ∧ currentSongIndex (app endedWorld) = Some (Num 1)
  ∧ currentSong (app endedWorld) = Some trackB
  ∧ songToDelete (app endedWorld) = Some 1
  ∧ currentSongIndex (app playingDeleteWorld) = Some (Num 0)
  ∧ songs (app staleDeleteWorld) = [trackA; trackC]
  ∧ playQueue (app staleDeleteWorld)
    = compactQueue 1 (playQueue (app endedWorld))
  ∧ originalQueue (app staleDeleteWorld)
    = compactQueue 1 (originalQueue (app endedWorld))
  ∧ playQueue (app staleDeleteWorld) = [0; 1]
  ∧ currentSongIndex (app staleDeleteWorld) = Some (Num 0)
  ∧ currentSongIndex (app staleDeleteWorld)
    ≠ Some (Num (1 `mod` Z.of_nat (length (playQueue (app staleDeleteWorld)))))
  ∧ currentSong (app staleDeleteWorld) = Some trackA
  ∧ isPlaying (app staleDeleteWorld) = true.
Proof.
  split; [exact staleDeleteWorld_reachable|].
  repeat split; by vm_compute.
Qed.

(** Scenarios C and D of the specification in small, with nothing happening
    between the click and the removal: with the third track playing,
    deleting the second keeps the third current; deleting the playing third
    track wraps to the first and restarts at time 0. *)
Example delete_scenarios :
  let playing := on_app (playSong 2) loadedWorld in
  let second := on_app (handleSongDeleteRequest 1) playing in
  let third := on_app (handleSongDeleteRequest 2) playing in
  let other := handleConfirmDelete Removed (app second) second in
  let current := handleConfirmDelete Removed (app third) third in
  currentSong (app playing) = Some trackC
  ∧ playQueue (app other) = [0; 1]
  ∧ currentSongIndex (app other) = Some (Num 1)
  ∧ currentSong (app other) = Some trackC
  ∧ playQueue (app current) = [0; 1]
  ∧ currentSongIndex (app current) = Some (Num 0)
  ∧ currentSong (app current) = Some trackA
  ∧ initialTime (app current) = 0%Q.
Proof. by vm_compute. Qed.

(** ** Toggling shuffle *)

Lemma swap_with_head_lookup (q : list Z) (k : nat) x :
  q !! k = Some x →
  swap_with_head q k !! 0%nat = Some x
  ∧ swap_with_head q k !! k = q !! 0%nat
  ∧ ∀ j, j ≠ 0%nat → j ≠ k → swap_with_head q k !! j = q !! j.
Proof.
  intros Hk. pose proof (lookup_lt_Some _ _ _ Hk) as Hlt.
  unfold swap_with_head. rewrite Hk.
  destruct (q !! 0%nat) as [a|] eqn:H0.
  - destruct (decide (k = 0%nat)) as [->|Hne].
    + assert (a = x) as -> by congruence.
      rewrite (list_insert_id q 0 x) by done.
      rewrite (list_insert_id q 0 x) by done. done.
    + split; [|split].
      * rewrite list_lookup_insert_ne by done.
        apply list_lookup_insert_eq. lia.
      * apply list_lookup_insert_eq. rewrite length_insert. lia.
      * intros j Hj0 Hjk. by rewrite !list_lookup_insert_ne by done.
  - apply lookup_ge_None in H0. lia.
Qed.

(** What [toggleShuffle] does to a state that satisfies the invariant. *)
Lemma toggleShuffle_spec st shuffled :
  app_ok st →
  shuffled ≡ₚ originalQueue st →
  let st' := toggleShuffle shuffled st in
  (isShuffled st = false →
     isShuffled st' = true
     ∧ playQueue st' ≡ₚ originalQueue st
     ∧ originalQueue st' = originalQueue st
     ∧ currentSongIndex st' = Some (Num 0)
     ∧ ∀ p t,
         currentSongIndex st = Some (Num p) →
         js_get (playQueue st) p = Some t →
         ∃ k, shuffled !! k = Some t
              ∧ playQueue st' !! 0%nat = Some t
              ∧ playQueue st' !! k = shuffled !! 0%nat
              ∧ ∀ j, j ≠ 0%nat → j ≠ k → playQueue st' !! j = shuffled !! j)
  ∧ (isShuffled st = true →
     isShuffled st' = false
     ∧ playQueue st' = originalQueue st
     ∧ originalQueue st' = originalQueue st
     ∧ (currentSongIndex st = None → currentSongIndex st' = Some (Num 0))
     ∧ ∀ p t,
         currentSongIndex st = Some (Num p) →
         js_get (playQueue st) p = Some t →
         ∃ p', currentSongIndex st' = Some (Num p')
               ∧ js_get (originalQueue st) p' = Some t).
Proof.
  intros Ha Hsh. simpl.
  pose proof (toggleShuffle_queue_perm shuffled st) as Hperm.
  assert (∀ p t, currentSongIndex st = Some (Num p) →
                 js_get (playQueue st) p = Some t →
                 currentSongOriginalIndex st = Some t ∧ 0 ≤ t
                 ∧ t ∈ originalQueue st) as Hcur.
  { intros p t Hp Ht.
    destruct (app_ok_playing st p Ha Hp) as (_ & t' & Ht' & Htr & _).
    assert (t' = t) as -> by congruence.
    split; [|split; [lia|]].
    - unfold currentSongOriginalIndex, playingLibraryIndex. by rewrite Hp.
    - rewrite (ok_original _ Ha). apply elem_of_seqZ. lia. }
  split; intros Hflag; rewrite Hflag in Hperm.
  - split; [|split; [|split; [|split]]].
    + unfold toggleShuffle. by rewrite Hflag.
    + by rewrite Hperm.
    + unfold toggleShuffle. rewrite Hflag. done.
    + unfold toggleShuffle. by rewrite Hflag.
    + intros p t Hp Ht. destruct (Hcur p t Hp Ht) as (Hc & Ht0 & Hin).
      rewrite <- Hsh in Hin.
      destruct (indexOf_found shuffled t Hin) as [Hr Hget].
      apply js_get_Some in Hget as [_ Hget].
      exists (Z.to_nat (indexOf shuffled t)). split; [done|].
      unfold toggleShuffle. rewrite Hflag, Hc. simpl.
      rewrite decide_True by (intros [=]; lia).
      case_decide as Hk; simpl.
      * by apply swap_with_head_lookup.
      * assert (indexOf shuffled t = 0) as H0 by lia.
        rewrite H0 in *. done.
  - split; [|split; [|split; [|split]]].
    + unfold toggleShuffle. by rewrite Hflag.
    + unfold toggleShuffle. rewrite Hflag. simpl. by case_decide.
    + unfold toggleShuffle. rewrite Hflag. simpl. by case_decide.
    + intros Hnone. unfold toggleShuffle, currentSongOriginalIndex,
        playingLibraryIndex. rewrite Hflag, Hnone. done.
    + intros p t Hp Ht. destruct (Hcur p t Hp Ht) as (Hc & Ht0 & Hin).
      destruct (indexOf_found _ t Hin) as [Hr Hget].
      unfold toggleShuffle. rewrite Hflag, Hc. simpl.
      rewrite decide_True by (intros [=]; lia). simpl.
      eexists. split; done.
Qed.

(** C4. Turning shuffle on makes [playQueue] a rearrangement of
    [originalQueue]: it is the random order [shuffled] with slot 0 and the
    slot [k] of the current track exchanged, so that the current track is at
    slot 0, and the position becomes 0. Turning shuffle off makes
    [playQueue] equal to [originalQueue] and puts the position on the
    offset of the current track in [originalQueue], or on 0 when the
    position was [null]. *)
Theorem C4_toggleShuffle st shuffled :
  app_ok st →
  shuffled ≡ₚ originalQueue st →
  let st' := toggleShuffle shuffled st in
  (isShuffled st = false →
     isShuffled st' = true
     ∧ playQueue st' ≡ₚ originalQueue st
     ∧ originalQueue st' = originalQueue st
     ∧ currentSongIndex st' = Some (Num 0)
     ∧ ∀ p t,
         currentSongIndex st = Some (Num p) →
         js_get (playQueue st) p = Some t →
         ∃ k, shuffled !! k = Some t
              ∧ playQueue st' !! 0%nat = Some t
              ∧ playQueue st' !! k = shuffled !! 0%nat
              ∧ ∀ j, j ≠ 0%nat → j ≠ k → playQueue st' !! j = shuffled !! j)
  ∧ (isShuffled st = true →
     isShuffled st' = false
     ∧ playQueue st' = originalQueue st
     ∧ originalQueue st' = originalQueue st
     ∧ (currentSongIndex st = None → currentSongIndex st' = Some (Num 0))
     ∧ ∀ p t,
         currentSongIndex st = Some (Num p) →
         js_get (playQueue st) p = Some t →
         ∃ p', currentSongIndex st' = Some (Num p')
               ∧ js_get (originalQueue st) p' = Some t).
Proof. apply toggleShuffle_spec. Qed.

Lemma C4_toggleShuffle_witness :
  app_ok (app loadedWorld)
  ∧ [2; 0; 1] ≡ₚ originalQueue (app loadedWorld)
  ∧ currentSongIndex (toggleShuffle [2; 0; 1] (app loadedWorld))
    = Some (Num 0).
Proof.
  pose proof (ok_app _ (reachable_ok _ loadedWorld_reachable)) as Ha.
  assert ([2; 0; 1] ≡ₚ originalQueue (app loadedWorld)) as Hsh
    by (apply (bool_decide_unpack _); by vm_compute).
  split; [exact Ha|]. split; [exact Hsh|].
  destruct (C4_toggleShuffle (app loadedWorld) [2; 0; 1] Ha Hsh) as [Hon _].
  by apply Hon.
Defined.

(** Scenario B of the specification, on three tracks: the second track is
    playing, the random order is 2, 0, 1; afterwards that track is in
    slot 0. *)
Example toggleShuffle_scenario :
  let st := playSong 1 (app loadedWorld) in
  currentSongIndex st = Some (Num 1)
  ∧ playQueue (toggleShuffle [2; 0; 1] st) = [1; 0; 2]
  ∧ currentSongIndex (toggleShuffle [2; 0; 1] st) = Some (Num 0).
Proof. by vm_compute. Qed.

(** ** Restoring a session *)

Lemma js_or_zero x : (js_or x 0 == x)%Q.
Proof.
  unfold js_or. destruct (Qeq_bool x 0) eqn:Hx; [|reflexivity].
  apply Qeq_bool_eq in Hx. by symmetry.
Qed.

(** C6. The branch of [processAudioFiles] that initializes afresh writes
    neither [isShuffled] nor [repeatMode], and a load completes on whatever
    state is there when its scan is over; the claim fails for a load that
    completes on a library with shuffle on. Tracks a, b and c are loaded,
    shuffle and repeat are turned on, and the save effect has stored the
    snapshot of the three tracks ([shuffledSavedWorld]); then a second load,
    started while the landing page was still shown, completes with two
    tracks ([mismatchLoadWorld]). The stored count 3 differs from 2: the
    snapshot is left unused, both queues are the identity and the position
    is 0, as the claim says, but the shuffle flag is still on and the repeat
    mode still [ALL], where a first load of the two tracks gives shuffle off
    and [NONE]. *)
Theorem C6_reconcile :
  reachable mismatchLoadWorld
  ∧ match localStorage shuffledSavedWorld with
    | Stored s => Saved.songCount s = 3
    | _ => False
    end
  ∧ isShuffled (app shuffledSavedWorld) = true
  ∧ repeatMode (app shuffledSavedWorld) = ALL
  ∧ songs (app mismatchLoadWorld) = [trackA; trackB]
  ∧ playQueue (app mismatchLoadWorld) = [0; 1]
  ∧ originalQueue (app mismatchLoadWorld) = [0; 1]
  ∧ currentSongIndex (app mismatchLoadWorld) = Some (Num 0)
  ∧ isPlaying (app mismatchLoadWorld) = false
  ∧ isShuffled (app mismatchLoadWorld) = true
  ∧ repeatMode (app mismatchLoadWorld) = ALL
  ∧ isShuffled (app (handleSelectFolder [trackA; trackB] initialWorld)) = false
  ∧ repeatMode (app (handleSelectFolder [trackA; trackB] initialWorld)) = NONE.
Proof.
  split; [exact mismatchLoadWorld_reachable|].
  repeat split; by vm_compute.
Qed.

(** Scenario E of the specification in small: a snapshot of three tracks met
    by a library of two. *)
Example reconcile_mismatch :
  let w' := processAudioFiles [trackA; trackB] savedWorld in
  playQueue (app w') = [0; 1]
  ∧ originalQueue (app w') = [0; 1]
  ∧ currentSongIndex (app w') = Some (Num 0)
  ∧ isShuffled (app w') = false
  ∧ localStorage w' = localStorage savedWorld.
Proof. by vm_compute. Qed.

(** ** Deletion touches the queue only after the file is gone *)



(** C10. A confirmed deletion that finds the position [null] and leaves at
    least one track selects offset 0 of the compacted queue. The position
    and the library the handler reads are those of [captured], the render
    in which Delete was clicked; [w] is the state in which the removal has
    completed. *)
Theorem C10_delete_without_selection captured w d song :
  songToDelete captured = Some d →
  directoryHandle captured = true →
  js_get (songs captured) d = Some song →
  currentSongIndex captured = None →
  1 < songCount captured →
  currentSongIndex (app (handleConfirmDelete Removed captured w))
  = Some (Num 0)
  ∧ playQueue (app (handleConfirmDelete Removed captured w))
    = compactQueue d (playQueue captured).
Proof.
  intros Hdel Hh Hsong Hnone Hn.
  unfold handleConfirmDelete. rewrite Hdel, Hh, Hsong. simpl.
  pose proof (newSongs_length (songs captured) d (js_get_lt _ _ _ Hsong)) as Hlen.
  unfold commitDelete.
  rewrite decide_False by (unfold songCount in Hn; lia).
  unfold playingLibraryIndex. rewrite Hnone. done.
Qed.

Lemma C10_delete_without_selection_witness :
  songToDelete (app unselectedWorld) = Some 1
  ∧ directoryHandle (app unselectedWorld) = true
  ∧ js_get (songs (app unselectedWorld)) 1 = Some trackB
  ∧ currentSongIndex (app unselectedWorld) = None
  ∧ 1 < songCount (app unselectedWorld)
  ∧ currentSongIndex
      (app (handleConfirmDelete Removed (app unselectedWorld) unselectedWorld))
    = Some (Num 0).
Proof.
  assert (songToDelete (app unselectedWorld) = Some 1) as Hdel
    by (by vm_compute).
  assert (directoryHandle (app unselectedWorld) = true) as Hh
    by (by vm_compute).
  assert (js_get (songs (app unselectedWorld)) 1 = Some trackB) as Hsong
    by (by vm_compute).
  assert (currentSongIndex (app unselectedWorld) = None) as Hnone
    by (by vm_compute).
  assert (1 < songCount (app unselectedWorld)) as Hn by (by vm_compute).
  split; [exact Hdel|]. split; [exact Hh|]. split; [exact Hsong|].
  split; [exact Hnone|]. split; [exact Hn|].
  exact (proj1 (C10_delete_without_selection (app unselectedWorld)
                  unselectedWorld 1 trackB Hdel Hh Hsong Hnone Hn)).
Defined.

(** ** Toggling shuffle twice *)

(** C8, as amended. On a non-empty library, two [toggleShuffle] calls in a
    row leave the position on the track it was on. If shuffle was off
    before the pair, [playQueue] equals [originalQueue] afterwards. (If it
    was on, the second call draws a new random order.) *)
Theorem C8_toggleShuffle_twice st s1 s2 :
  app_ok st →
  songs st ≠ [] →
  s1 ≡ₚ originalQueue st →
  s2 ≡ₚ originalQueue st →
  let st2 := toggleShuffle s2 (toggleShuffle s1 st) in
  (∃ p t p2,
     currentSongIndex st = Some (Num p)
     ∧ js_get (playQueue st) p = Some t
     ∧ currentSongIndex st2 = Some (Num p2)
     ∧ js_get (playQueue st2) p2 = Some t)
  ∧ isShuffled st2 = isShuffled st
  ∧ originalQueue st2 = originalQueue st
  ∧ (isShuffled st = false → playQueue st2 = originalQueue st2).
Proof.
  intros Ha Hne Hs1 Hs2. simpl.
  destruct (app_ok_current st Ha Hne) as (p & t & Hp & Ht & _ & _ & _).
  pose proof (toggleShuffle_ok s1 st Ha Hne Hs1) as Ha1.
  destruct (toggleShuffle_spec st s1 Ha Hs1) as [Hon Hoff].
  destruct (isShuffled st) eqn:Hflag.
  - (* on, then off and on again *)
    destruct (Hoff eq_refl) as (Hf1 & Hq1 & Ho1 & _ & Hpos1).
    destruct (Hpos1 p t Hp Ht) as (p1 & Hp1 & Ht1).
    rewrite <- Ho1 in Hs2.
    destruct (toggleShuffle_spec _ s2 Ha1 Hs2) as [Hon2 _].
    destruct (Hon2 Hf1) as (Hf2 & _ & Ho2 & Hp2 & Hpos2).
    rewrite <- Hq1 in Ht1.
    destruct (Hpos2 p1 t Hp1 Ht1) as (k & _ & Hfirst & _).
    split; [|split; [done|split; [congruence|done]]].
    exists p, t, 0. repeat split; done.
  - (* off, then on and off again *)
    destruct (Hon eq_refl) as (Hf1 & _ & Ho1 & Hp1 & Hpos1).
    destruct (Hpos1 p t Hp Ht) as (k & _ & Hfirst & _).
    rewrite <- Ho1 in Hs2.
    destruct (toggleShuffle_spec _ s2 Ha1 Hs2) as [_ Hoff2].
    destruct (Hoff2 Hf1) as (Hf2 & Hq2 & Ho2 & _ & Hpos2).
    assert (js_get (playQueue (toggleShuffle s1 st)) 0 = Some t) as Ht1
      by (apply js_get_Some; split; [lia|done]).
    destruct (Hpos2 0 t Hp1 Ht1) as (p2 & Hp2 & Ht2).
    split; [|split; [done|split; [congruence|intros _; congruence]]].
    exists p, t, p2. repeat split; try done.
    by rewrite Hq2.
Qed.

Lemma C8_toggleShuffle_twice_witness :
  app_ok (app loadedWorld)
  ∧ songs (app loadedWorld) ≠ []
  ∧ [2; 0; 1] ≡ₚ originalQueue (app loadedWorld)
  ∧ [1; 2; 0] ≡ₚ originalQueue (app loadedWorld)
  ∧ playQueue (toggleShuffle [1; 2; 0] (toggleShuffle [2; 0; 1] (app loadedWorld)))
    = originalQueue
        (toggleShuffle [1; 2; 0] (toggleShuffle [2; 0; 1] (app loadedWorld))).
Proof.
  pose proof (ok_app _ (reachable_ok _ loadedWorld_reachable)) as Ha.
  assert ([2; 0; 1] ≡ₚ originalQueue (app loadedWorld)) as Hs1
    by (apply (bool_decide_unpack _); by vm_compute).
  assert ([1; 2; 0] ≡ₚ originalQueue (app loadedWorld)) as Hs2
    by (apply (bool_decide_unpack _); by vm_compute).
  split; [exact Ha|]. split; [discriminate|].
  split; [exact Hs1|]. split; [exact Hs2|].
  destruct (C8_toggleShuffle_twice (app loadedWorld) [2; 0; 1] [1; 2; 0]
              Ha ltac:(discriminate) Hs1 Hs2) as (_ & _ & _ & Hback).
  by apply Hback.
Defined.

(** C8 as stated fails when shuffle is already on: from [shuffledWorld],
    with its three tracks and track 0 current, the pair of calls ends in the
    order 0, 2, 1 when the second random order is 1, 2, 0, while
    [originalQueue] is 0, 1, 2. *)
Lemma C8_counterexample :
  reachable shuffledWorld
  ∧ songs (app shuffledWorld) ≠ []
  ∧ [0; 1; 2] ≡ₚ originalQueue (app shuffledWorld)
  ∧ [1; 2; 0] ≡ₚ originalQueue (app shuffledWorld)
  ∧ playQueue
      (toggleShuffle [1; 2; 0] (toggleShuffle [0; 1; 2] (app shuffledWorld)))
    = [0; 2; 1]
  ∧ originalQueue
      (toggleShuffle [1; 2; 0] (toggleShuffle [0; 1; 2] (app shuffledWorld)))
    = [0; 1; 2]
  ∧ playQueue
      (toggleShuffle [1; 2; 0] (toggleShuffle [0; 1; 2] (app shuffledWorld)))
    ≠ originalQueue
        (toggleShuffle [1; 2; 0] (toggleShuffle [0; 1; 2] (app shuffledWorld))).
Proof.
  split; [exact shuffledWorld_reachable|]. split; [discriminate|].
  split; [apply (bool_decide_unpack _); by vm_compute|].
  split; [apply (bool_decide_unpack _); by vm_compute|].
  split; [by vm_compute|]. split; [by vm_compute|].
  by vm_compute.
Qed.

(** ** An empty queue *)

(** C9, as amended. With no tracks and no position, [playNext] and
    [playPrev] change nothing, and [togglePlayPause] changes nothing but
    [isPlaying], which it inverts. None of the three can fail: they are
    total functions. *)
Theorem C9_empty_queue st :
  songs st = [] →
  currentSongIndex st = None →
  playNext st = st
  ∧ playPrev st = st
  ∧ togglePlayPause st = setIsPlaying (negb (isPlaying st)) st
  ∧ songs (togglePlayPause st) = songs st
  ∧ playQueue (togglePlayPause st) = playQueue st
  ∧ originalQueue (togglePlayPause st) = originalQueue st
  ∧ currentSongIndex (togglePlayPause st) = currentSongIndex st
  ∧ isPlaying (togglePlayPause st) = negb (isPlaying st).
Proof.
  intros He Hnone.
  assert (togglePlayPause st = setIsPlaying (negb (isPlaying st)) st) as Ht.
  { unfold togglePlayPause. rewrite decide_False; [done|].
    unfold songCount. rewrite He. simpl. lia. }
  rewrite Ht. unfold playNext, playPrev. rewrite Hnone. done.
Qed.

Lemma C9_empty_queue_witness :
  songs initialApp = []
  ∧ currentSongIndex initialApp = None
  ∧ playNext initialApp = initialApp
  ∧ playPrev initialApp = initialApp
  ∧ isPlaying (togglePlayPause initialApp) = true.
Proof.
  split; [reflexivity|]. split; [reflexivity|].
  destruct (C9_empty_queue initialApp eq_refl eq_refl)
    as (Hn & Hp & _ & _ & _ & _ & _ & Hflag).
  split; [exact Hn|]. split; [exact Hp|exact Hflag].
Defined.

(** C9 as stated fails for [togglePlayPause]: on the state the application
    starts in, with no tracks, it sets [isPlaying]. *)
Lemma C9_counterexample :
  songs initialApp = []
  ∧ playQueue initialApp = []
  ∧ isPlaying initialApp = false
  ∧ isPlaying (togglePlayPause initialApp) = true
  ∧ togglePlayPause initialApp ≠ initialApp.
Proof. repeat split; try reflexivity. discriminate. Qed.

(** * Further properties of the handlers *)

(** ** What holds in every reachable state *)

(** X1. In every reachable state [originalQueue] is exactly the list of the
    library's indices in ascending order: no handler ever reorders it. *)
Theorem originalQueue_is_identity w :
  reachable w →
  originalQueue (app w) = seqZ 0 (songCount (app w)).
Proof. intros Hr. apply (ok_original _ (ok_app _ (reachable_ok w Hr))). Qed.

Lemma originalQueue_is_identity_witness :
  originalQueue (app deleteWorld) = seqZ 0 (songCount (app deleteWorld)).
Proof. exact (originalQueue_is_identity deleteWorld deleteWorld_reachable). Defined.

(** X2. In every reachable state the position is [null] exactly when the
    library is empty, and [currentSong] is a song exactly when it is not:
    the condition under which [Player] is rendered holds whenever there is
    a track. *)
Theorem position_null_iff_empty w :
  reachable w →
  (currentSongIndex (app w) = None ↔ songs (app w) = [])
  ∧ (is_Some (currentSong (app w)) ↔ songs (app w) ≠ [])
  ∧ (playerRendered (app w) ↔ songs (app w) ≠ []).
Proof.
  intros Hr. pose proof (ok_app _ (reachable_ok w Hr)) as Ha.
  assert (songs (app w) ≠ [] → is_Some (currentSong (app w))) as Hcur.
  { intros Hne. pose proof (app_ok_currentSong _ Ha Hne).
    by destruct (currentSong (app w)). }
  split; [|split].
  - split; [|apply (ok_empty _ Ha)].
    intros Hnone. destruct (decide (songs (app w) = [])) as [|Hne]; [done|].
    destruct (ok_position _ Ha Hne) as (p & Hp & _). congruence.
  - split; [|done]. intros [s Hs] He.
    unfold currentSong in Hs. rewrite (ok_empty _ Ha He) in Hs. done.
  - split; [by intros [? _]|]. intros Hne. split; [done|].
    destruct (Hcur Hne) as [s Hs]. congruence.
Qed.

Lemma position_null_iff_empty_witness :
  (currentSongIndex (app savedWorld) = None ↔ songs (app savedWorld) = [])
  ∧ (is_Some (currentSong (app savedWorld)) ↔ songs (app savedWorld) ≠ [])
  ∧ (playerRendered (app savedWorld) ↔ songs (app savedWorld) ≠ []).
Proof. exact (position_null_iff_empty savedWorld savedWorld_reachable). Defined.

(** X3. Whatever snapshot a reachable state has in [localStorage] is well
    formed: it counts at least one song, its [originalQueue] is the
    ascending index list of that many songs, its [playQueue] a
    rearrangement of it, its position an index into it, and its rate one of
    [playbackSpeeds]. *)
Theorem stored_snapshot_is_well_formed w s :
  reachable w →
  localStorage w = Stored s →
  0 < Saved.songCount s
  ∧ Saved.originalQueue s = seqZ 0 (Saved.songCount s)
  ∧ Saved.playQueue s ≡ₚ seqZ 0 (Saved.songCount s)
  ∧ (∃ p, Saved.currentSongIndex s = Some p ∧ 0 ≤ p < Saved.songCount s)
  ∧ Saved.playbackRate s ∈ playbackSpeeds.
Proof.
  intros Hr Hst.
  destruct (ok_stored _ (reachable_ok w Hr) s Hst) as [? ? ? ? ?]. done.
Qed.

Lemma stored_snapshot_is_well_formed_witness :
  localStorage savedWorld = Stored (stateToSave (app loadedWorld) (7 # 2))
  ∧ Saved.originalQueue (stateToSave (app loadedWorld) (7 # 2))
    = seqZ 0 (Saved.songCount (stateToSave (app loadedWorld) (7 # 2)))
  ∧ Saved.playbackRate (stateToSave (app loadedWorld) (7 # 2))
    ∈ playbackSpeeds.
Proof.
  assert (localStorage savedWorld
          = Stored (stateToSave (app loadedWorld) (7 # 2))) as Hst
    by (by vm_compute).
  split; [exact Hst|].
  destruct (stored_snapshot_is_well_formed savedWorld
              (stateToSave (app loadedWorld) (7 # 2))
              savedWorld_reachable Hst) as (_ & Ho & _ & _ & Hr).
  split; [exact Ho|exact Hr].
Defined.

(** ** Selecting a track *)

(** X4. [playSong] with a library index that occurs in [playQueue] moves
    the position to the first offset holding it, so that [currentSong] is
    the song of that index, and sets [isPlaying]; the start time is reset to
    0 when the position changed and kept when the track was already
    current. *)
Theorem playSong_selects st i :
  i ∈ playQueue st →
  let p := indexOf (playQueue st) i in
  let st' := playSong i st in
  currentSongIndex st' = Some (Num p)
  ∧ js_get (playQueue st') p = Some i
  ∧ currentSong st' = js_get (songs st) i
  ∧ isPlaying st' = true
  ∧ playQueue st' = playQueue st
  ∧ (currentSongIndex st = Some (Num p) → initialTime st' = initialTime st)
  ∧ (currentSongIndex st ≠ Some (Num p) → initialTime st' = 0%Q).
Proof.
  intros Hin. simpl. destruct (indexOf_found _ _ Hin) as [Hr Hget].
  unfold playSong. rewrite decide_True by lia.
  case_decide as Hc; simpl; unfold currentSong; simpl; rewrite Hget.
  - by repeat split.
  - by repeat split.
Qed.

Lemma playSong_selects_witness :
  2 ∈ playQueue (app shuffledWorld)
  ∧ currentSongIndex (playSong 2 (app shuffledWorld)) = Some (Num 1)
  ∧ currentSong (playSong 2 (app shuffledWorld)) = Some trackC.
Proof.
  assert (2 ∈ playQueue (app shuffledWorld)) as Hin
    by (apply (bool_decide_unpack _); by vm_compute).
  split; [exact Hin|].
  destruct (playSong_selects (app shuffledWorld) 2 Hin)
    as (Hp & _ & Hc & _).
  split; [exact Hp|exact Hc].
Defined.

(** X5. [playSong] with an index that occurs in neither queue changes
    nothing. *)
Theorem playSong_unknown_index st i :
  i ∉ playQueue st →
  i ∉ originalQueue st →
  playSong i st = st.
Proof.
  intros Hq Ho. unfold playSong.
  rewrite (indexOf_not_found _ _ Hq), (indexOf_not_found _ _ Ho).
  by rewrite !decide_False by (intros ?; done).
Qed.

Lemma playSong_unknown_index_witness :
  (7 ∉ playQueue (app loadedWorld))
  ∧ (7 ∉ originalQueue (app loadedWorld))
  ∧ playSong 7 (app loadedWorld) = app loadedWorld.
Proof.
  assert (7 ∉ playQueue (app loadedWorld)) as Hq
    by (apply (bool_decide_unpack _); by vm_compute).
  assert (7 ∉ originalQueue (app loadedWorld)) as Ho
    by (apply (bool_decide_unpack _); by vm_compute).
  split; [exact Hq|]. split; [exact Ho|].
  exact (playSong_unknown_index (app loadedWorld) 7 Hq Ho).
Defined.

(** ** Shuffle does not interrupt *)

(** X6. On a non-empty library that satisfies the invariant,
    [toggleShuffle] keeps the current song, the library, the library order,
    [isPlaying] and the start time; it inverts the flag. *)
Theorem toggleShuffle_keeps_current_song st shuffled :
  app_ok st →
  songs st ≠ [] →
  shuffled ≡ₚ originalQueue st →
  let st' := toggleShuffle shuffled st in
  currentSong st' = currentSong st
  ∧ is_Some (currentSong st')
  ∧ songs st' = songs st
  ∧ originalQueue st' = originalQueue st
  ∧ isPlaying st' = isPlaying st
  ∧ initialTime st' = initialTime st
  ∧ isShuffled st' = negb (isShuffled st).
Proof.
  intros Ha Hne Hsh. simpl.
  destruct (app_ok_current st Ha Hne) as (p & t & Hp & Ht & _ & _ & _).
  destruct (toggleShuffle_spec st shuffled Ha Hsh) as [Hon Hoff].
  assert (currentSong st = js_get (songs st) t) as Hcur.
  { unfold currentSong. rewrite Hp. simpl. by rewrite Ht. }
  assert (is_Some (currentSong st)) as Hsome.
  { pose proof (app_ok_currentSong st Ha Hne).
    by destruct (currentSong st). }
  assert (currentSong (toggleShuffle shuffled st) = currentSong st) as Hsame.
  { rewrite Hcur. unfold currentSong at 1. rewrite toggleShuffle_songs.
    destruct (isShuffled st) eqn:Hflag.
    - destruct (Hoff eq_refl) as (_ & Hq & _ & _ & Hpos).
      destruct (Hpos p t Hp Ht) as (p' & -> & Ht'). simpl.
      by rewrite Hq, Ht'.
    - destruct (Hon eq_refl) as (_ & _ & _ & -> & Hpos).
      destruct (Hpos p t Hp Ht) as (k & _ & H0 & _). simpl.
      assert (js_get (playQueue (toggleShuffle shuffled st)) 0 = Some t)
        as -> by (by apply js_get_Some).
      done. }
  rewrite Hsame. split; [done|]. split; [done|].
  split; [apply toggleShuffle_songs|].
  unfold toggleShuffle. destruct (isShuffled st); simpl.
  - by case_decide.
  - done.
Qed.

Lemma toggleShuffle_keeps_current_song_witness :
  app_ok (app loadedWorld)
  ∧ songs (app loadedWorld) ≠ []
  ∧ [2; 0; 1] ≡ₚ originalQueue (app loadedWorld)
  ∧ currentSong (toggleShuffle [2; 0; 1] (app loadedWorld))
    = currentSong (app loadedWorld).
Proof.
  pose proof (ok_app _ (reachable_ok _ loadedWorld_reachable)) as Ha.
  assert ([2; 0; 1] ≡ₚ originalQueue (app loadedWorld)) as Hsh
    by (apply (bool_decide_unpack _); by vm_compute).
  split; [exact Ha|]. split; [discriminate|]. split; [exact Hsh|].
  exact (proj1 (toggleShuffle_keeps_current_song (app loadedWorld) [2; 0; 1]
                  Ha ltac:(discriminate) Hsh)).
Defined.

(** ** Next and previous undo each other *)

(** X7. With the position at [p] inside the queue: [playPrev] after
    [playNext] is back at [p] unless [playNext] stopped at the end, that is
    when [p] is not the last index or the repeat mode is ALL; [playNext]
    after [playPrev] is back at [p] when [p] is not 0 or the repeat mode is
    ALL. *)
Theorem playNext_playPrev_inverse st p :
  currentSongIndex st = Some (Num p) →
  0 ≤ p < queueLength st →
  (p + 1 < queueLength st ∨ repeatMode st = ALL →
     currentSongIndex (playPrev (playNext st)) = Some (Num p))
  ∧ (0 < p ∨ repeatMode st = ALL →
     currentSongIndex (playNext (playPrev st)) = Some (Num p)).
Proof.
  intros Hp Hr. split.
  - intros Hcase. unfold playNext. rewrite Hp. simpl.
    case_bool_decide as Hend.
    + destruct Hcase as [?|Hall]; [lia|]. rewrite decide_True by done.
      unfold playPrev, queueLength in *. simpl.
      rewrite decide_False by lia. do 2 f_equal.
      rewrite Z.rem_mod_nonneg by lia.
      symmetry. apply (Z.mod_unique_pos _ _ 0); lia.
    + unfold playPrev, queueLength in *. simpl.
      rewrite decide_False by lia. do 2 f_equal.
      rewrite Z.rem_mod_nonneg by lia.
      symmetry. apply (Z.mod_unique_pos _ _ 1); lia.
  - intros Hcase. unfold playPrev. rewrite Hp. simpl.
    rewrite decide_False by lia.
    unfold playNext, queueLength in *. simpl.
    rewrite Z.rem_mod_nonneg by lia.
    destruct (decide (p = 0)) as [->|Hp0].
    + destruct Hcase as [?|Hall]; [lia|].
      replace ((0 + -1 + Z.of_nat (length (playQueue st)))
               `mod` Z.of_nat (length (playQueue st)))
        with (Z.of_nat (length (playQueue st)) - 1)
        by (apply (Z.mod_unique_pos _ _ 0); lia).
      rewrite bool_decide_true by lia. by rewrite decide_True.
    + replace ((p + -1 + Z.of_nat (length (playQueue st)))
               `mod` Z.of_nat (length (playQueue st)))
        with (p - 1) by (apply (Z.mod_unique_pos _ _ 1); lia).
      rewrite bool_decide_false by lia. simpl.
      by replace (p - 1 + 1) with p by lia.
Qed.

Lemma playNext_playPrev_inverse_witness :
  currentSongIndex (app loadedWorld) = Some (Num 0)
  ∧ 0 ≤ 0 < queueLength (app loadedWorld)
  ∧ currentSongIndex (playPrev (playNext (app loadedWorld))) = Some (Num 0).
Proof.
  assert (0 ≤ 0 < queueLength (app loadedWorld)) as Hr by (by vm_compute).
  split; [reflexivity|]. split; [exact Hr|].
  apply (proj1 (playNext_playPrev_inverse (app loadedWorld) 0 eq_refl Hr)).
  left. by vm_compute.
Defined.

(** ** Cycling modes and rates *)

(** X8. [cycleRepeatMode] always changes the mode, changes nothing else,
    and three calls in a row restore the state. *)
Theorem cycleRepeatMode_period_three st :
  repeatMode (cycleRepeatMode st) ≠ repeatMode st
  ∧ setRepeatMode (repeatMode st) (cycleRepeatMode st) = st
  ∧ cycleRepeatMode (cycleRepeatMode (cycleRepeatMode st)) = st.
Proof. destruct st as [? ? ? [] ? ? ? ? ? ? ? ?]; by repeat split. Qed.

(** X9. [cyclePlaybackRate] always ends on one of [playbackSpeeds]. From a
    rate that equals none of them it goes to the first, 0.75. From one of
    them it goes to a different one, and four calls in a row come back to
    it. *)
Theorem cyclePlaybackRate_cycles st :
  playbackRate (cyclePlaybackRate st) ∈ playbackSpeeds
  ∧ (speedIndex (playbackRate st) = -1 →
     playbackRate (cyclePlaybackRate st) = (3 # 4)%Q)
  ∧ (playbackRate st ∈ playbackSpeeds →
     playbackRate (cyclePlaybackRate st) ≠ playbackRate st
     ∧ playbackRate
         (cyclePlaybackRate
            (cyclePlaybackRate (cyclePlaybackRate (cyclePlaybackRate st))))
       = playbackRate st).
Proof.
  split; [|split].
  - pose proof (Z.rem_bound_pos (speedIndex (playbackRate st) + 1) 4) as Hb.
    assert (-1 ≤ speedIndex (playbackRate st)) as Hlo.
    { unfold speedIndex. case_match; [case_match|]; lia. }
    unfold cyclePlaybackRate.
    destruct (js_get playbackSpeeds _) as [r|] eqn:Hr; simpl.
    + apply js_get_Some in Hr as [_ Hr]. by eapply list_elem_of_lookup_2.
    + exfalso. destruct (js_get_in_range playbackSpeeds
        (Z.rem (speedIndex (playbackRate st) + 1)
               (Z.of_nat (length playbackSpeeds)))) as [r' Hr'];
        [simpl; lia|congruence].
  - intros Hi. unfold cyclePlaybackRate. rewrite Hi. done.
  - unfold playbackSpeeds. rewrite !elem_of_cons, elem_of_nil.
    intros [Hr|[Hr|[Hr|[Hr|[]]]]]; unfold cyclePlaybackRate;
      rewrite Hr; simpl; rewrite ?Hr; by split.
Qed.

(** ** Saving and restoring *)

(** X10. Round trip of the session: from a reachable state with a library,
    the snapshot that [handleBeforeUnload] writes at elapsed time [t], read
    back after the reload by a load of as many songs, gives the same play
    order, library order, position, shuffle flag, repeat mode and rate, the
    start time [t], and a paused player. *)
Theorem snapshot_round_trip w t newSongs :
  reachable w →
  songs (app w) ≠ [] →
  length newSongs = length (songs (app w)) →
  let st' := app (processAudioFiles newSongs (reload t w)) in
  songs st' = newSongs
  ∧ playQueue st' = playQueue (app w)
  ∧ originalQueue st' = originalQueue (app w)
  ∧ currentSongIndex st' = currentSongIndex (app w)
  ∧ isShuffled st' = isShuffled (app w)
  ∧ repeatMode st' = repeatMode (app w)
  ∧ playbackRate st' = playbackRate (app w)
  ∧ (initialTime st' == t)%Q
  ∧ isPlaying st' = false.
Proof.
  intros Hr Hne Hlen. simpl.
  pose proof (ok_app _ (reachable_ok w Hr)) as Ha.
  destruct (ok_position _ Ha Hne) as (p & Hp & _).
  pose proof (app_ok_currentSong _ Ha Hne) as Hcur.
  apply songCount_pos in Hne as Hn.
  unfold reload, handleBeforeUnload.
  rewrite decide_True by (rewrite Hp; done). simpl.
  unfold processAudioFiles.
  rewrite decide_False
    by (rewrite Hlen; unfold songCount in Hn; lia). simpl.
  rewrite decide_True by (unfold songCount; by rewrite Hlen). simpl.
  rewrite Hp. simpl.
  rewrite (speed_truthy _ (ok_rate _ Ha)).
  repeat split; try done. apply js_or_zero.
Qed.

Lemma snapshot_round_trip_witness :
  reachable shuffledWorld
  ∧ songs (app shuffledWorld) ≠ []
  ∧ length [trackA; trackB; trackC] = length (songs (app shuffledWorld))
  ∧ playQueue
      (app (processAudioFiles [trackA; trackB; trackC]
              (reload (5 # 1) shuffledWorld)))
    = playQueue (app shuffledWorld).
Proof.
  assert (songs (app shuffledWorld) ≠ []) as Hne by (by vm_compute).
  assert (length [trackA; trackB; trackC] = length (songs (app shuffledWorld)))
    as Hlen by (by vm_compute).
  split; [exact shuffledWorld_reachable|]. split; [exact Hne|].
  split; [exact Hlen|].
  exact (proj1 (proj2 (snapshot_round_trip shuffledWorld (5 # 1)
                         [trackA; trackB; trackC] shuffledWorld_reachable
                         Hne Hlen))).
Defined.

(** X11. What [processAudioFiles] makes of a stored snapshot, on whatever
    state the load completes. If the stored [songCount] equals the number of
    loaded songs, both stored queues, the stored position, shuffle flag,
    repeat mode, rate and time become the state. If it differs, both queues
    are the identity, the position is 0, the rate 1 and the start time 0,
    and the shuffle flag and the repeat mode are left as they were. Either
    way the library is the loaded one, the snapshot stays stored and the
    player is paused. *)
Theorem processAudioFiles_reconciles w newSongs s :
  newSongs ≠ [] →
  localStorage w = Stored s →
  snapshot_ok s →
  let n := Z.of_nat (length newSongs) in
  let w' := processAudioFiles newSongs w in
  songs (app w') = newSongs
  ∧ localStorage w' = Stored s
  ∧ isPlaying (app w') = false
  ∧ (Saved.songCount s = n →
       playQueue (app w') = Saved.playQueue s
       ∧ originalQueue (app w') = Saved.originalQueue s
       ∧ originalQueue (app w') = seqZ 0 n
       ∧ currentSongIndex (app w') = Num <$> Saved.currentSongIndex s
       ∧ isShuffled (app w') = Saved.isShuffled s
       ∧ repeatMode (app w') = Saved.repeatMode s
       ∧ playbackRate (app w') = Saved.playbackRate s
       ∧ (initialTime (app w') == Saved.currentTime s)%Q)
  ∧ (Saved.songCount s ≠ n →
       playQueue (app w') = seqZ 0 n
       ∧ originalQueue (app w') = seqZ 0 n
       ∧ currentSongIndex (app w') = Some (Num 0)
       ∧ playbackRate (app w') = 1%Q
       ∧ initialTime (app w') = 0%Q
       ∧ isShuffled (app w') = isShuffled (app w)
       ∧ repeatMode (app w') = repeatMode (app w)).
Proof.
  intros Hne Hst [Hc Ho Hp Hpos Hrate]. simpl.
  unfold processAudioFiles.
  rewrite decide_False by (by destruct newSongs).
  rewrite Hst. simpl.
  destruct (decide (Saved.songCount s = Z.of_nat (length newSongs)))
    as [Heq|Hneq]; simpl.
  - repeat split; try done.
    + by rewrite Ho, Heq.
    + by apply speed_truthy.
    + apply js_or_zero.
  - repeat split; done.
Qed.

Lemma processAudioFiles_reconciles_witness :
  [trackA; trackB] ≠ []
  ∧ localStorage shuffledSavedWorld
    = Stored (stateToSave (app shuffledSavedWorld) 0)
  ∧ isShuffled (app (processAudioFiles [trackA; trackB] shuffledSavedWorld))
    = isShuffled (app shuffledSavedWorld)
  ∧ playQueue (app (processAudioFiles [trackA; trackB] shuffledSavedWorld))
    = seqZ 0 2.
Proof.
  assert (localStorage shuffledSavedWorld
          = Stored (stateToSave (app shuffledSavedWorld) 0)) as Hst
    by (by vm_compute).
  assert (reachable shuffledSavedWorld) as Hr.
  { exists []. eapply reach_step; [|apply step_saveEffect].
    eapply reach_step; [apply shuffledWorld_reachableWith|].
    apply step_cycleRepeatMode. split; by vm_compute. }
  pose proof (ok_stored _ (reachable_ok _ Hr) _ Hst) as Hok.
  split; [discriminate|]. split; [exact Hst|].
  destruct (processAudioFiles_reconciles shuffledSavedWorld [trackA; trackB]
              (stateToSave (app shuffledSavedWorld) 0)
              ltac:(discriminate) Hst Hok) as (_ & _ & _ & _ & Hfresh).
  destruct (Hfresh ltac:(by vm_compute)) as (Hq & _ & _ & _ & _ & Hsh & _).
  split; [exact Hsh|exact Hq].
Defined.

(** X12. Running the save effect again changes nothing more, and a run
    that overwrites a snapshot keeps the elapsed time stored in it. *)
Theorem saveEffect_idempotent w :
  saveEffect (saveEffect w) = saveEffect w
  ∧ app (saveEffect w) = app w
  ∧ ∀ s, localStorage w = Stored s →
         ∃ s', localStorage (saveEffect w) = Stored s'
               ∧ (Saved.currentTime s' == Saved.currentTime s)%Q.
Proof.
  assert (∀ x, js_or (js_or x 0) 0 = js_or x 0) as Hidem.
  { intros x. unfold js_or. destruct (Qeq_bool x 0) eqn:Hx; [done|].
    by rewrite Hx. }
  split; [|split].
  - destruct (decide (0 < songCount (app w) ∧ currentSongIndex (app w) ≠ None))
      as [Hc|Hc].
    + unfold saveEffect at 2. rewrite decide_True by done.
      unfold saveEffect. simpl. rewrite !decide_True by done.
      destruct (localStorage w); simpl; rewrite ?Hidem; done.
    + unfold saveEffect at 2. rewrite decide_False by done.
      done.
  - unfold saveEffect. by case_decide.
  - intros s Hs. unfold saveEffect. rewrite Hs. case_decide; simpl.
    + eexists. split; [done|]. simpl. apply js_or_zero.
    + rewrite Hs. by eexists.
Qed.

(** ** More on deleting *)

(** Both queues after [commitDelete], under the invariant. *)
Lemma commitDelete_queues d captured w :
  app_ok captured →
  0 ≤ d < songCount captured →
  playQueue (app (commitDelete d captured w))
  = compactQueue d (playQueue captured)
  ∧ originalQueue (app (commitDelete d captured w))
    = compactQueue d (originalQueue captured).
Proof.
  intros Ha Hd.
  pose proof (newSongs_length (songs captured) d Hd) as Hlen.
  unfold commitDelete. case_decide as Hz; simpl; [|by case_match].
  assert (songCount captured = 1) as H1 by (unfold songCount in *; lia).
  split; symmetry; apply Permutation_nil_r.
  - rewrite (compactQueue_perm d _ _ (ok_play _ Ha)).
    by rewrite compactQueue_identity, H1.
  - by rewrite (ok_original _ Ha), compactQueue_identity, H1.
Qed.

Lemma compactQueue_same_songs {A} (arr : list A) d q :
  0 ≤ d →
  (∀ x, x ∈ q → 0 ≤ x) →
  js_get (filter_index (λ index, bool_decide (index ≠ d)) 0 arr)
    <$> compactQueue d q
  = js_get arr <$> filter (λ i, i ≠ d) q.
Proof.
  intros Hd Hq. unfold compactQueue. rewrite <- list_fmap_compose.
  apply list_fmap_ext. intros i x Hx. simpl.
  apply list_elem_of_lookup_2, list_elem_of_filter in Hx as [Hne Hin].
  apply newSongs_lookup; auto.
Qed.

(** X13. What a confirmed deletion writes, in terms of the render in which
    Delete was clicked ([captured]); [w] is the state in which the removal
    completes, and when nothing happened in between it is that same state.
    Both orders are the captured ones without the deleted index [d], each
    entry above [d] lowered by one. If the captured position was on the
    deleted track, the new position is the captured one modulo the new
    queue length and [initialTime] is 0; if it was on another track, the
    new position holds the shifted index of that track, which names the
    same song, and [initialTime] is not written; if no entry is left, the
    position is [null]. *)
Theorem delete_commits_captured_state captured w d :
  app_ok captured →
  songToDelete captured = Some d →
  directoryHandle captured = true →
  0 ≤ d < songCount captured →
  let st' := app (handleConfirmDelete Removed captured w) in
  let shift := λ i, if decide (d < i) then i - 1 else i in
  originalQueue st' = shift <$> filter (λ i, i ≠ d) (originalQueue captured)
  ∧ playQueue st' = shift <$> filter (λ i, i ≠ d) (playQueue captured)
  ∧ (playQueue st' = [] → currentSongIndex st' = None)
  ∧ ∀ p t,
      currentSongIndex captured = Some (Num p) →
      js_get (playQueue captured) p = Some t →
      (t = d → playQueue st' ≠ [] →
         currentSongIndex st'
         = Some (Num (p `mod` Z.of_nat (length (playQueue st'))))
         ∧ initialTime st' = 0%Q
         ∧ isPlaying st' = isPlaying captured)
      ∧ (t ≠ d →
         ∃ p', currentSongIndex st' = Some (Num p')
               ∧ js_get (playQueue st') p' = Some (shift t)
               ∧ js_get (songs st') (shift t) = js_get (songs captured) t
               ∧ currentSong st' = currentSong captured
               ∧ initialTime st' = initialTime (app w)
               ∧ isPlaying st' = isPlaying (app w)).
Proof.
  intros Ha Hdel Hh Hd. simpl.
  destruct (js_get_in_range (songs captured) d Hd) as [song Hsong].
  assert (songs captured ≠ []) as Hne by (apply songCount_pos; lia).
  destruct (app_ok_current _ Ha Hne) as (p & t & Hp & Ht & _ & Hpr & Htr).
  pose proof (newSongs_length (songs captured) d Hd) as Hlen.
  assert (compactQueue d (playQueue captured)
          ≡ₚ identityQueue (songCount captured - 1)) as Hq.
  { rewrite (compactQueue_perm d _ _ (ok_play _ Ha)).
    rewrite compactQueue_identity by done. done. }
  assert (Z.of_nat (length (compactQueue d (playQueue captured)))
          = songCount captured - 1) as Hql.
  { apply perm_identity_length; [|done]. lia. }
  unfold handleConfirmDelete. rewrite Hdel, Hh, Hsong. simpl.
  fold (compactQueue d (playQueue captured)).
  fold (compactQueue d (originalQueue captured)).
  destruct (decide (songCount captured = 1)) as [H1|H1].
  - (* the last track goes *)
    assert (compactQueue d (playQueue captured) = []) as Hq0.
    { apply Permutation_nil_r. rewrite Hq, H1. done. }
    assert (compactQueue d (originalQueue captured) = []) as Ho0.
    { rewrite (ok_original _ Ha), compactQueue_identity, H1 by done. done. }
    rewrite Hq0, Ho0. unfold commitDelete.
    rewrite decide_True by (unfold songCount in *; lia). simpl.
    split; [done|]. split; [done|]. split; [done|].
    intros p' t' Hp' Ht'. split; [done|].
    intros Hne'. exfalso.
    assert (t' = t) as -> by congruence. lia.
  - (* a track survives *)
    assert (filter_index (λ index, bool_decide (index ≠ d)) 0 (songs captured)
            ≠ []) as Hsurv.
    { intros He. rewrite He in Hlen. unfold songCount in *. simpl in Hlen. lia. }
    rewrite (commitDelete_app d captured w p t Hp Ht Hsurv). simpl.
    assert (compactQueue d (playQueue captured) ≠ []) as Hpq.
    { intros He. rewrite He in Hql. simpl in Hql. lia. }
    destruct (decide (t = d)) as [Htd|Htd]; simpl;
      (split; [done|]); (split; [done|]); (split; [done|]);
      intros p' t' Hp' Ht';
      assert (t' = t) as -> by congruence;
      assert (p' = p) as -> by congruence;
      (split; [intros Heq|intros Hneq]); try contradiction.
    + intros _. rewrite Hql.
      rewrite decide_False by lia. by rewrite Z.rem_mod_nonneg by lia.
    + assert (t ∈ playQueue captured) as Hin.
      { apply js_get_Some in Ht as [_ Ht]. by eapply list_elem_of_lookup_2. }
      pose proof (compactQueue_elem d _ t Hin Htd) as Hel.
      apply indexOf_found in Hel as [Hr Hget].
      rewrite decide_True by lia.
      eexists. split; [done|]. split; [done|].
      pose proof (newSongs_lookup (songs captured) d t) as Hsame.
      rewrite Hsame by lia.
      split; [done|]. split; [|done].
      unfold currentSong. simpl. rewrite Hp. simpl. rewrite Hget, Ht.
      by rewrite Hsame by lia.
Qed.

Lemma delete_commits_captured_state_witness :
  app_ok (app playingDeleteWorld)
  ∧ songToDelete (app playingDeleteWorld) = Some 1
  ∧ directoryHandle (app playingDeleteWorld) = true
  ∧ 0 ≤ 1 < songCount (app playingDeleteWorld)
  ∧ currentSong (app staleDeleteWorld) = currentSong (app playingDeleteWorld).
Proof.
  assert (reachable playingDeleteWorld) as Hr.
  { exists []. eapply reach_step.
    - eapply reach_step; [apply loadedWorld_reachableWith|].
      apply step_togglePlayPause, loadedWorld_rendered.
    - apply step_deleteRequest; [|by vm_compute].
      split; [apply (bool_decide_unpack _); by vm_compute|by eexists]. }
  pose proof (ok_app _ (reachable_ok _ Hr)) as Ha.
  assert (songToDelete (app playingDeleteWorld) = Some 1) as Hdel
    by (by vm_compute).
  assert (directoryHandle (app playingDeleteWorld) = true) as Hh
    by (by vm_compute).
  assert (0 ≤ 1 < songCount (app playingDeleteWorld)) as Hd by (by vm_compute).
  split; [exact Ha|]. split; [exact Hdel|]. split; [exact Hh|].
  split; [exact Hd|].
  destruct (delete_commits_captured_state (app playingDeleteWorld) endedWorld 1
              Ha Hdel Hh Hd) as (_ & _ & _ & Hpos).
  assert (currentSongIndex (app playingDeleteWorld) = Some (Num 0)) as Hp
    by (by vm_compute).
  assert (js_get (playQueue (app playingDeleteWorld)) 0 = Some 0) as Ht
    by (by vm_compute).
  destruct (Hpos 0 0 Hp Ht) as [_ Hother].
  destruct (Hother ltac:(discriminate)) as (p' & _ & _ & _ & Hcur & _).
  exact Hcur.
Defined.

(** X14. A confirmed deletion leaves every remaining entry of both queues
    on the song it named when Delete was clicked: reading the new queue
    through the new library gives what the captured queue without the
    deleted index gave through the captured library, entry by entry and in
    the same order. *)
Theorem delete_keeps_queue_songs captured w d :
  app_ok captured →
  songToDelete captured = Some d →
  directoryHandle captured = true →
  0 ≤ d < songCount captured →
  let st' := app (handleConfirmDelete Removed captured w) in
  js_get (songs st') <$> playQueue st'
  = js_get (songs captured) <$> filter (λ i, i ≠ d) (playQueue captured)
  ∧ js_get (songs st') <$> originalQueue st'
    = js_get (songs captured) <$> filter (λ i, i ≠ d) (originalQueue captured)
  ∧ length (playQueue st') = (length (playQueue captured) - 1)%nat
  ∧ length (songs st') = (length (songs captured) - 1)%nat.
Proof.
  intros Ha Hdel Hh Hd. simpl.
  destruct (js_get_in_range (songs captured) d Hd) as [song Hsong].
  destruct (commitDelete_queues d captured w Ha Hd) as [Hq Ho].
  pose proof (newSongs_length (songs captured) d Hd) as Hlen.
  unfold handleConfirmDelete. rewrite Hdel, Hh, Hsong. simpl.
  rewrite Hq, Ho, commitDelete_songs.
  assert (∀ q, q ≡ₚ identityQueue (songCount captured) → ∀ x, x ∈ q → 0 ≤ x)
    as Hnonneg.
  { intros q Hp x Hx. apply (perm_identity_elem _ _ _ Hp) in Hx. lia. }
  split; [|split; [|split]].
  - apply compactQueue_same_songs; [lia|]. apply Hnonneg, (ok_play _ Ha).
  - apply compactQueue_same_songs; [lia|]. apply Hnonneg.
    by rewrite (ok_original _ Ha).
  - assert (Z.of_nat (length (compactQueue d (playQueue captured)))
            = songCount captured - 1) as Hl.
    { apply perm_identity_length; [lia|].
      rewrite (compactQueue_perm d _ _ (ok_play _ Ha)).
      by rewrite compactQueue_identity. }
    pose proof (app_ok_queueLength _ Ha) as Hql.
    unfold queueLength in Hql. lia.
  - lia.
Qed.

Lemma delete_keeps_queue_songs_witness :
  app_ok (app deleteWorld)
  ∧ songToDelete (app deleteWorld) = Some 1
  ∧ directoryHandle (app deleteWorld) = true
  ∧ 0 ≤ 1 < songCount (app deleteWorld)
  ∧ js_get (songs (app (handleConfirmDelete Removed (app deleteWorld) deleteWorld)))
      <$> playQueue
            (app (handleConfirmDelete Removed (app deleteWorld) deleteWorld))
    = js_get (songs (app deleteWorld))
        <$> filter (λ i, i ≠ 1) (playQueue (app deleteWorld)).
Proof.
  pose proof (ok_app _ (reachable_ok _ deleteWorld_reachable)) as Ha.
  assert (songToDelete (app deleteWorld) = Some 1) as Hdel by (by vm_compute).
  assert (directoryHandle (app deleteWorld) = true) as Hh by (by vm_compute).
  assert (0 ≤ 1 < songCount (app deleteWorld)) as Hd by (by vm_compute).
  split; [exact Ha|]. split; [exact Hdel|]. split; [exact Hh|].
  split; [exact Hd|].
  exact (proj1 (delete_keeps_queue_songs (app deleteWorld) deleteWorld 1
                  Ha Hdel Hh Hd)).
Defined.

(** X15. Deleting the only track of the library empties the library, both
    queues and the position, stops playback, removes the stored snapshot
    and closes the dialog, whatever the state was in which the removal
    completed. *)
Theorem delete_last_track captured w song :
  songs captured = [song] →
  songToDelete captured = Some 0 →
  directoryHandle captured = true →
  let w' := handleConfirmDelete Removed captured w in
  songs (app w') = []
  ∧ playQueue (app w') = []
  ∧ originalQueue (app w') = []
  ∧ currentSongIndex (app w') = None
  ∧ currentSong (app w') = None
  ∧ isPlaying (app w') = false
  ∧ songToDelete (app w') = None
  ∧ localStorage w' = Absent.
Proof.
  intros Hs Hdel Hh. simpl.
  unfold handleConfirmDelete. rewrite Hdel, Hh, Hs. simpl.
  unfold commitDelete. rewrite Hs. simpl. done.
Qed.

Lemma delete_last_track_witness :
  songs (app singleTrackWorld) = [trackA]
  ∧ songToDelete (app singleTrackWorld) = Some 0
  ∧ directoryHandle (app singleTrackWorld) = true
  ∧ localStorage singleTrackWorld ≠ Absent
  ∧ localStorage
      (handleConfirmDelete Removed (app singleTrackWorld) singleTrackWorld)
    = Absent.
Proof.
  assert (songs (app singleTrackWorld) = [trackA]) as Hs by (by vm_compute).
  assert (songToDelete (app singleTrackWorld) = Some 0) as Hd
    by (by vm_compute).
  assert (directoryHandle (app singleTrackWorld) = true) as Hh
    by (by vm_compute).
  split; [exact Hs|]. split; [exact Hd|]. split; [exact Hh|].
  split; [by vm_compute|].
  apply (delete_last_track (app singleTrackWorld) singleTrackWorld trackA
           Hs Hd Hh).
Defined.

(** X16. [handleConfirmDelete] clicked without a pending deletion or without
    a directory handle changes nothing at all, the dialog included. With a
    pending index that names no song it only closes the dialog, showing no
    message, unless permission was not granted. *)
Theorem handleConfirmDelete_without_target captured w fs :
  (songToDelete captured = None ∨ directoryHandle captured = false →
     handleConfirmDelete fs captured w = w)
  ∧ (∀ d, songToDelete captured = Some d →
          directoryHandle captured = true →
          js_get (songs captured) d = None →
          fs ≠ PermissionDenied →
          handleConfirmDelete fs captured w
          = on_app (setSongToDelete None) w).
Proof.
  split.
  - intros [Hnone|Hh]; unfold handleConfirmDelete.
    + by rewrite Hnone.
    + rewrite Hh. by destruct (songToDelete captured).
  - intros d Hdel Hh Hsong Hfs. unfold handleConfirmDelete.
    rewrite Hdel, Hh, Hsong. by destruct fs.
Qed.

(** X17. A confirmed deletion never touches the shuffle flag, the repeat
    mode, the playback rate, the directory handle or the messages shown:
    they are those of the state in which the removal completes. The stored
    snapshot is kept when a track survives; [isPlaying] is cleared when none
    does. *)
Theorem delete_keeps_flags captured w d song :
  songToDelete captured = Some d →
  directoryHandle captured = true →
  js_get (songs captured) d = Some song →
  let w' := handleConfirmDelete Removed captured w in
  isShuffled (app w') = isShuffled (app w)
  ∧ repeatMode (app w') = repeatMode (app w)
  ∧ playbackRate (app w') = playbackRate (app w)
  ∧ directoryHandle (app w') = directoryHandle (app w)
  ∧ alerts (app w') = alerts (app w)
  ∧ (songs (app w') ≠ [] → localStorage w' = localStorage w)
  ∧ (songs (app w') = [] → isPlaying (app w') = false).
Proof.
  intros Hdel Hh Hsong. simpl.
  unfold handleConfirmDelete. rewrite Hdel, Hh, Hsong. simpl.
  rewrite commitDelete_storage, commitDelete_songs.
  unfold commitDelete. case_decide as Hz; simpl.
  - apply length_zero_iff_nil in Hz. by repeat split.
  - assert (filter_index (λ index, bool_decide (index ≠ d)) 0 (songs captured)
            ≠ []) as Hne by (by intros ?%length_zero_iff_nil).
    rewrite decide_False by done.
    case_match eqn:Hm; simpl.
    assert (isShuffled a = isShuffled (app w)
            ∧ repeatMode a = repeatMode (app w)
            ∧ playbackRate a = playbackRate (app w)
            ∧ directoryHandle a = directoryHandle (app w)
            ∧ alerts a = alerts (app w)) as (-> & -> & -> & -> & ->).
    { repeat case_match; by simplify_eq. }
    by repeat split.
Qed.

Lemma delete_keeps_flags_witness :
  songToDelete (app deleteWorld) = Some 1
  ∧ directoryHandle (app deleteWorld) = true
  ∧ js_get (songs (app deleteWorld)) 1 = Some trackB
  ∧ isShuffled (app (handleConfirmDelete Removed (app deleteWorld) deleteWorld))
    = isShuffled (app deleteWorld).
Proof.
  assert (songToDelete (app deleteWorld) = Some 1) as Hdel by (by vm_compute).
  assert (directoryHandle (app deleteWorld) = true) as Hh by (by vm_compute).
  assert (js_get (songs (app deleteWorld)) 1 = Some trackB) as Hsong
    by (by vm_compute).
  split; [exact Hdel|]. split; [exact Hh|]. split; [exact Hsong|].
  exact (proj1 (delete_keeps_flags (app deleteWorld) deleteWorld 1 trackB
                  Hdel Hh Hsong)).
Defined.

(** ** Scanning the folder *)

Lemma Entry_ind_nested (P : Entry → Prop) :
  (∀ file, P (FileEntry file)) →
  (∀ name entries, Forall P entries → P (DirectoryEntry name entries)) →
  ∀ entry, P entry.
Proof.
  intros Hfile Hdir. fix IH 1. intros [file|name entries].
  - apply Hfile.
  - apply Hdir. induction entries as [|e es IHes]; constructor.
    + apply IH.
    + apply IHes.
Qed.

Lemma fileAtPath_split root path file :
  fileAtPath root path file ↔ ∃ e, e ∈ root ∧ fileAtPath [e] path file.
Proof.
  split.
  - intros [r f Hin|r n es q f Hin Hsub].
    + exists (FileEntry f). split; [done|]. constructor. by left.
    + exists (DirectoryEntry n es). split; [done|].
      econstructor; [by left|done].
  - intros (e & Hin & He). inversion He as [r f Hf|r n es q f Hd Hsub]; subst.
    + apply list_elem_of_singleton in Hf as <-. by constructor.
    + apply list_elem_of_singleton in Hd as <-. by econstructor.
Qed.

Lemma fileAtPath_file f0 path file :
  fileAtPath [FileEntry f0] path file ↔ path = [file_name f0] ∧ file = f0.
Proof.
  split.
  - intros He. inversion He as [r f Hf|r n es q f Hd Hsub]; subst.
    + apply list_elem_of_singleton in Hf. by simplify_eq.
    + apply list_elem_of_singleton in Hd. done.
  - intros [-> ->]. constructor. by left.
Qed.

Lemma fileAtPath_directory name entries path file :
  fileAtPath [DirectoryEntry name entries] path file
  ↔ ∃ rest, path = name :: rest ∧ fileAtPath entries rest file.
Proof.
  split.
  - intros He. inversion He as [r f Hf|r n es q f Hd Hsub]; subst.
    + apply list_elem_of_singleton in Hf. done.
    + apply list_elem_of_singleton in Hd. simplify_eq. by eexists.
  - intros (rest & -> & Hsub). econstructor; [by left|done].
Qed.

Lemma fileAtPath_head e path file :
  fileAtPath [e] path file → ∃ rest, path = entry_name e :: rest.
Proof.
  destruct e as [f0|n es].
  - intros [-> _]%fileAtPath_file. by eexists.
  - intros (rest & -> & _)%fileAtPath_directory. by eexists.
Qed.

Lemma visitEntry_spec entry :
  ∀ currentPath file path,
    (file, path) ∈ visitEntry currentPath entry
    ↔ ∃ q, path = currentPath ++ q
           ∧ fileAtPath [entry] q file ∧ isAudio file = true.
Proof.
  induction entry as [f0|name entries IH] using Entry_ind_nested;
    intros cur file path.
  - simpl. split.
    + destruct (isAudio f0) eqn:Ha; [|by intros ?%elem_of_nil].
      intros ?%list_elem_of_singleton. simplify_eq.
      exists [file_name f0]. split; [done|]. split; [|done].
      by apply fileAtPath_file.
    + intros (q & -> & [-> ->]%fileAtPath_file & Ha). rewrite Ha. by left.
  - simpl. rewrite list_elem_of_bind. split.
    + intros (e & He & Hin).
      rewrite Forall_forall in IH.
      apply (IH e Hin) in He as (q & -> & Hq & Ha).
      exists (name :: q). split; [by rewrite <- app_assoc|]. split; [|done].
      apply fileAtPath_directory. exists q. split; [done|].
      apply fileAtPath_split. by exists e.
    + intros (q & -> & (rest & -> & Hsub)%fileAtPath_directory & Ha).
      apply fileAtPath_split in Hsub as (e & Hin & He).
      exists e. split; [|done].
      rewrite Forall_forall in IH. apply (IH e Hin).
      exists rest. split; [by rewrite <- app_assoc|done].
Qed.

(** X18. The scan returns exactly the audio files of the folder, each with
    the path that leads to it: the names of the directories from the root
    down, then the file's name, after [currentPath]. Files of other types
    are left out at every depth. *)
Theorem getFilesRecursively_spec root currentPath file path :
  (file, path) ∈ getFilesRecursively root currentPath
  ↔ ∃ q, path = currentPath ++ q
         ∧ fileAtPath root q file ∧ isAudio file = true.
Proof.
  unfold getFilesRecursively. rewrite list_elem_of_bind. split.
  - intros (e & He & Hin). apply visitEntry_spec in He as (q & -> & Hq & Ha).
    exists q. split; [done|]. split; [|done].
    apply fileAtPath_split. by exists e.
  - intros (q & -> & (e & Hin & He)%fileAtPath_split & Ha).
    exists e. split; [|done]. apply visitEntry_spec. by exists q.
Qed.

Example getFilesRecursively_musicFolder :
  getFilesRecursively musicFolder []
  = [(fileA, ["a.mp3"]); (fileC, ["sub"; "c.mp3"]); (fileB, ["b.mp3"])].
Proof. reflexivity. Qed.

(** ** Display names and tags *)

Lemma stripExtension_prefix name :
  String.prefix (stripExtension name) name = true.
Proof.
  induction name as [|c rest IH]; simpl; [done|].
  destruct (Ascii.eqb c "." && extensionTail rest); simpl; [done|].
  by destruct (Ascii.ascii_dec c c).
Qed.

(** X19. The display name cut from a file name is a prefix of the file
    name, and the file name itself when it has no dot. The artist and the
    album of a song are never empty: an absent or empty tag gives the
    "Unknown" text, and so does a failed read. A title tag that is not
    empty is the song's name; otherwise the name comes from the file
    name. *)
Theorem getSongMetadata_fallbacks file tags :
  meta_artist (getSongMetadata file tags) ≠ ""
  ∧ meta_album (getSongMetadata file tags) ≠ ""
  ∧ (∀ t title, tags = Some t → tag_title t = Some title → title ≠ "" →
       meta_name (getSongMetadata file tags) = title)
  ∧ ((∀ t, tags = Some t → tag_title t = None ∨ tag_title t = Some "") →
       meta_name (getSongMetadata file tags) = stripExtension (file_name file))
  ∧ String.prefix (stripExtension (file_name file)) (file_name file) = true
  ∧ (forallb (λ c, negb (Ascii.eqb c "."))
       (String.list_ascii_of_string (file_name file)) = true →
     stripExtension (file_name file) = file_name file).
Proof.
  assert (∀ v d, d ≠ "" → string_or v d ≠ "") as Hor.
  { intros [s|] d Hd; simpl; [|done].
    destruct (String.eqb s "") eqn:Hs; [done|].
    by apply String.eqb_neq in Hs. }
  split; [|split; [|split; [|split; [|split]]]].
  - destruct tags as [t|]; simpl; [by apply Hor|done].
  - destruct tags as [t|]; simpl; [by apply Hor|done].
  - intros t title -> Ht Hne. simpl. rewrite Ht. simpl.
    apply String.eqb_neq in Hne. by rewrite Hne.
  - intros Hblank. destruct tags as [t|]; simpl; [|done].
    destruct (Hblank t eq_refl) as [->| ->]; done.
  - apply stripExtension_prefix.
  - generalize (file_name file). intros name.
    induction name as [|c rest IH]; simpl; [done|].
    intros [Hc Hrest]%andb_prop.
    apply negb_true_iff in Hc. rewrite Hc. simpl. by rewrite IH.
Qed.

Lemma getSongMetadata_fallbacks_witness :
  meta_name
    (getSongMetadata fileA
       (Some {| tag_title := Some ""; tag_artist := None;
                tag_album := Some "Live" |}))
  = "a".
Proof.
  destruct (getSongMetadata_fallbacks fileA
              (Some {| tag_title := Some ""; tag_artist := None;
                       tag_album := Some "Live" |}))
    as (_ & _ & _ & Hname & _).
  rewrite Hname; [reflexivity|].
  intros t [= <-]. by right.
Defined.

(** Only the last extension goes, a name that is all extension becomes
    empty, and a dot at the end or before a slash is no extension. *)
Example stripExtension_names :
  stripExtension "01. Intro.mp3" = "01. Intro"
  ∧ stripExtension "archive.tar.gz" = "archive.tar"
  ∧ stripExtension ".mp3" = ""
  ∧ stripExtension "track." = "track."
  ∧ stripExtension "v1.0/track" = "v1.0/track"
  ∧ stripExtension "track" = "track".
Proof. repeat split. Qed.

(** ** Volume *)

(** X20. After the volume slider was moved to a value that is not
    negative, the volume written to the [audio] element is that value, and
    the player is muted exactly when the value is 0. Unmuting after the
    slider was moved to 0 leaves the element silent: the volume is still
    0. *)
Theorem handleVolumeChange_audible newVolume s :
  (0 <= newVolume)%Q →
  (audioVolume (handleVolumeChange newVolume s) == newVolume)%Q
  ∧ (isMuted (handleVolumeChange newVolume s) = true ↔ (newVolume == 0)%Q)
  ∧ ((newVolume == 0)%Q →
     (audioVolume (toggleMute (handleVolumeChange newVolume s)) == 0)%Q).
Proof.
  intros Hv. unfold handleVolumeChange, audioVolume, toggleMute.
  destruct (Qle_bool newVolume 0) eqn:Hle; simpl.
  - apply Qle_bool_iff in Hle.
    assert (newVolume == 0)%Q as H0 by (by apply Qle_antisym).
    assert (Qeq_bool newVolume 0 = true) as -> by (by apply Qeq_bool_iff).
    destruct (isMuted s); simpl.
    + split; [by symmetry|]. split; [done|]. intros _. done.
    + split; [by symmetry|]. split; [done|]. intros _. done.
  - assert (¬ (newVolume == 0)%Q) as Hne.
    { intros H0. rewrite H0 in Hle. done. }
    assert (Qeq_bool newVolume 0 = false) as ->.
    { destruct (Qeq_bool newVolume 0) eqn:He; [|done].
      by apply Qeq_bool_iff in He. }
    destruct (isMuted s); simpl.
    + split; [reflexivity|]. split; [split; [done|by intros]|done].
    + split; [reflexivity|]. split; [split; [done|by intros]|done].
Qed.

Lemma handleVolumeChange_audible_witness :
  (0 <= 0)%Q
  ∧ isMuted (handleVolumeChange 0 initialSound) = true
  ∧ (audioVolume (toggleMute (handleVolumeChange 0 initialSound)) == 0)%Q.
Proof.
  assert (0 <= 0)%Q as Hv by (by vm_compute).
  destruct (handleVolumeChange_audible 0 initialSound Hv) as (_ & Hm & Hu).
  split; [exact Hv|]. split; [apply Hm; reflexivity|apply Hu; reflexivity].
Defined.

(** ** The sleep timer *)

(** The first half of [setSleepTimer] leaves nothing pending. *)
Lemma setSleepTimer_clears t :
  timers_ok t →
  match sleepTimerRef t with
  | Some handle =>
      if decide (handle ≠ 0)
      then clearTimeout handle (pendingTimeouts t)
      else pendingTimeouts t
  | None => pendingTimeouts t
  end = [].
Proof.
  intros [Hnext Href Hpending].
  destruct Hpending as [->|(h & d & Hp & Hr)].
  - destruct (sleepTimerRef t); [case_decide|]; done.
  - pose proof (Href h Hr). rewrite Hr, Hp.
    rewrite decide_True by lia. unfold clearTimeout.
    rewrite filter_cons_False by (simpl; auto). done.
Qed.

Lemma timerStep_ok t e : timers_ok t → timers_ok (timerStep t e).
Proof.
  intros Hok. pose proof Hok as [Hnext Href Hpending].
  destruct e as [minutes|handle]; simpl.
  - unfold setSleepTimer. rewrite (setSleepTimer_clears t Hok).
    case_decide; constructor; simpl; try done; try lia.
    + intros handle [= <-]. done.
    + right. by eexists _, _.
    + by left.
  - constructor; simpl; try done.
    destruct Hpending as [->|(h & d & -> & Hr)]; [by left|].
    unfold clearTimeout. destruct (decide (h = handle)) as [->|Hne].
    + left. rewrite filter_cons_False by (simpl; auto). done.
    + right. exists h, d. rewrite filter_cons_True by done. done.
Qed.

(** X21. However often a sleep timer is set, changed or cancelled while
    [Player] stays mounted, at most one timeout is pending, and it is the
    one set last: setting a timer clears the one before. Cancelling, which
    is setting 0 minutes, leaves none pending. *)
Theorem setSleepTimer_single_timeout h events :
  0 < h →
  let t := foldl timerStep (mountedTimers h) events in
  (length (pendingTimeouts t) ≤ 1)%nat
  ∧ (∀ handle delay, (handle, delay) ∈ pendingTimeouts t →
       sleepTimerRef t = Some handle)
  ∧ pendingTimeouts (setSleepTimer 0 t) = []
  ∧ ∀ minutes, 0 < minutes →
      ∃ handle,
        pendingTimeouts (setSleepTimer minutes t)
        = [(handle, minutes * 60 * 1000)].
Proof.
  intros Hh. cbv zeta.
  assert (timers_ok (foldl timerStep (mountedTimers h) events)) as Hok.
  { assert (timers_ok (mountedTimers h)) as H0.
    { constructor; simpl; [done|done|by left]. }
    revert H0. generalize (mountedTimers h).
    induction events as [|e events IH]; intros t Ht; simpl; [done|].
    by apply IH, timerStep_ok. }
  set (t := foldl timerStep (mountedTimers h) events) in *.
  split; [|split; [|split]].
  - destruct (timers_pending _ Hok) as [->|(x & d & -> & _)]; simpl; lia.
  - intros handle delay Hin.
    destruct (timers_pending _ Hok) as [He|(x & d & He & Hr)];
      rewrite He in Hin.
    + by apply elem_of_nil in Hin.
    + apply list_elem_of_singleton in Hin. by simplify_eq.
  - unfold setSleepTimer. rewrite decide_False by lia. simpl.
    apply (setSleepTimer_clears t Hok).
  - intros minutes Hm. exists (nextHandle t). unfold setSleepTimer.
    rewrite decide_True by done. simpl.
    by rewrite (setSleepTimer_clears t Hok).
Qed.

Lemma setSleepTimer_single_timeout_witness :
  0 < 1
  ∧ ∃ handle,
      pendingTimeouts
        (setSleepTimer 30
           (foldl timerStep (mountedTimers 1)
              [SetSleepTimer 15; SetSleepTimer 60]))
      = [(handle, 30 * 60 * 1000)].
Proof.
  assert (0 < 1) as Hh by lia.
  split; [exact Hh|].
  destruct (setSleepTimer_single_timeout 1
              [SetSleepTimer 15; SetSleepTimer 60] Hh) as (_ & _ & _ & Hset).
  apply Hset. lia.
Defined.

(** Fifteen minutes, then sixty, then thirty: only the last is pending. *)
Example setSleepTimer_replaces :
  pendingTimeouts
    (foldl timerStep (mountedTimers 1)
       [SetSleepTimer 15; SetSleepTimer 60; SetSleepTimer 30])
  = [(3, 1800000)].
Proof. by vm_compute. Qed.
